(** * archive-uninstall: removal of archive contents from a target directory

    A shallow embedding of [archive-uninstall] (package [main] of
    calennert/tools) and the properties of its removal pass and of its
    directory sweep.

    The program talks to the operating system ([os.Open], [os.Remove],
    [ioutil.ReadAll], [filepath.Walk]), to the archive walkers of
    [github.com/calennert/archive] and to the terminal.  The operating system
    is an interface ([Env]); the program is written in a state monad [M] over
    the file system, the global [directories] slice and the chronological
    trace of the calls the program makes.  All theorems hold for every
    implementation of [Env]; [MemFS] is one concrete implementation, used to
    run the program on examples. *)

From Stdlib Require Import ZArith Strings.Ascii Strings.String Strings.Byte.
From stdpp Require Import base option list strings sorting gmap.

Set Default Proof Using "Type".
#[local] Set Warnings "-clear-no-such-hyp".
Local Open Scope string_scope.
Local Open Scope list_scope.
Declare Scope prog_scope.
Delimit Scope prog_scope with prog.

(** ** Go values *)

(** [[]byte]. *)
Abbreviation bytes := (list Byte.byte).

#[global] Instance byte_eq_dec : EqDecision Byte.byte := Byte.byte_eq_dec.

(** A Go [error] value: its message and whether [os.IsNotExist] holds of it.
    The [nil] error is [None] of [option error]. *)
Record error := mkError { Error : string; notExist : bool }.

Definition os_IsNotExist (err : error) : bool := notExist err.

(** [*os.File]: [Name] is the path the file was opened with. *)
Record os_File := mkFile { file_Name : string }.

(** [*tar.Reader] positioned on the current entry: what reading it to the end
    yields. *)
Record tar_Reader := mkTarReader { tar_data : bytes + error }.

(** [*tar.Header], with [header.FileInfo().IsDir()]. *)
Record tar_Header := mkTarHeader { hdr_Name : string; hdr_IsDir : bool }.

(** The [io.ReadCloser] of an opened zip entry. *)
Record zip_ReadCloser := mkZipReader { zip_data : bytes + error }.

(** [*zip.File], with [file.FileInfo().IsDir()] and the result of
    [file.Open()]. *)
Record zip_File := mkZipFile {
  zf_Name : string;
  zf_IsDir : bool;
  zf_Open : zip_ReadCloser + error
}.

(** [archive.Type]. *)
Inductive archive_Type := Tar | TarBz2 | TarGz | TarXz | Zip.

(** [color.Attribute], as far as [init] uses it. *)
Inductive color_Attribute := FgGreen | FgRed | FgCyan.

(** One call of the [walkFn] of [filepath.Walk]: the visited path and the
    error the walk hands to the callback ([os.FileInfo] is not looked at by
    this program). *)
Record visit := mkVisit { visit_path : string; visit_err : option error }.

(** What an archive walker gets out of an archive file: the entries it yields,
    in the archive's order, and the error that ends the traversal early, if
    any (an archive that cannot be opened yields no entry and an error). *)
Record listing (E : Type) := mkListing {
  entries : list E;
  failure : option error
}.
Arguments mkListing {E} _ _.
Arguments entries {E} _.
Arguments failure {E} _.

(** ** The environment *)

Class Env := {
  (** the state of the file system *)
  world : Type;
  (** [os.Open]: [None] is success *)
  sys_Open : string → world → option error;
  (** reading an open [*os.File] to the end *)
  sys_ReadAll : string → world → bytes + error;
  (** [os.Remove] *)
  sys_Remove : string → world → world + error;
  (** the calls [filepath.Walk] makes to its callback, in order *)
  sys_Walk : string → world → list visit;
  (** [filepath.Join] ([path.Join] in the first version of the tool) *)
  Join : string → string → string;
  (** [sha256.Sum256] *)
  Sum256 : bytes → bytes;
  (** [color.New(attr).SprintFunc()] applied to one string *)
  color_Sprint : color_Attribute → string → string;
  (** the archive as the tar walker of the given flavour reads it *)
  tar_listing : archive_Type → string → listing (tar_Header * tar_Reader);
  (** the archive as the zip walker reads it *)
  zip_listing : string → listing zip_File
}.

(** ** Flags and arguments *)

(** The values [kingpin] parses in [init]; [archiveFile] and [targetDir] are
    the [Name()]s of the two opened files. *)
Record config := mkConfig {
  verbose : bool;
  dryRun : bool;
  removeDirs : bool;
  verify : bool;
  noColor : bool;
  archiveType : archive_Type;
  archiveFile : string;
  targetDir : string
}.

(** ** Trace and state *)

Inductive event :=
| EvOpen (path : string) (ok : bool)
| EvReadFile (name : string)
| EvReadArchive
| EvZipOpen (name : string)
| EvSum256 (data : bytes)
| EvRemove (path : string) (ok : bool)
| EvWalk (root : string) (visited : nat)
| EvPrintf (text : string)
| EvFatal (msg : string) (err : error).

Definition is_remove (e : event) : bool :=
  match e with EvRemove _ _ => true | _ => false end.

Definition is_walk (e : event) : bool :=
  match e with EvWalk _ _ => true | _ => false end.

Definition is_printf (e : event) : bool :=
  match e with EvPrintf _ => true | _ => false end.

(** The calls of the per-file decision: opening, reading and hashing. *)
Definition is_file_step (e : event) : bool :=
  match e with
  | EvOpen _ _ | EvReadFile _ | EvReadArchive | EvZipOpen _ | EvSum256 _ => true
  | _ => false
  end.

(** How a computation ends: it returns, or the process exits. *)
Inductive res (A : Type) :=
| Done (a : A)
| Exited (code : Z).
Arguments Done {A} _.
Arguments Exited {A} _.

Section Program.
Context `{Env}.

Record state := mkState {
  fs : world;
  directories : list string;
  trace : list event
}.

Definition M (A : Type) : Type := state → res A * state.

Definition ret {A : Type} (a : A) : M A := λ s, (Done a, s).

Definition bind {A B : Type} (m : M A) (k : A → M B) : M B := λ s,
  match m s with
  | (Done a, s') => k a s'
  | (Exited c, s') => (Exited c, s')
  end.

#[local] Notation "x ← y ; z" := (bind y (λ x : _, z))
  (at level 20, y at level 100, z at level 200, only parsing) : prog_scope.
#[local] Notation "' x ← y ; z" := (bind y (λ x : _, z))
  (at level 20, x pattern, y at level 100, z at level 200, only parsing)
  : prog_scope.
#[local] Notation "x ;; z" := (bind x (λ _, z))
  (at level 100, z at level 200, only parsing, right associativity)
  : prog_scope.
#[local] Open Scope prog_scope.

Definition emit (e : event) : M unit :=
  λ s, (Done tt, mkState (fs s) (directories s) (trace s ++ [e])).

Definition when (b : bool) (m : M unit) : M unit :=
  if b then m else ret tt.

(** ** Library calls *)

Definition os_Open (name : string) : M (option os_File * option error) :=
  λ s, match sys_Open name (fs s) with
       | None => (emit (EvOpen name true) ;; ret (Some (mkFile name), None)) s
       | Some err => (emit (EvOpen name false) ;; ret (None, Some err)) s
       end.

Definition os_Remove (name : string) : M (option error) :=
  λ s, match sys_Remove name (fs s) with
       | inl w => (Done None,
                   mkState w (directories s) (trace s ++ [EvRemove name true]))
       | inr err => (emit (EvRemove name false) ;; ret (Some err)) s
       end.

(** [io.Reader], through [ioutil.ReadAll]. *)
Class io_Reader (R : Type) := ioutil_ReadAll : R → M (bytes + error).

#[export] Instance os_File_Reader : io_Reader os_File := λ file s,
  (emit (EvReadFile (file_Name file)) ;;
   ret (sys_ReadAll (file_Name file) (fs s))) s.

#[export] Instance tar_Reader_Reader : io_Reader tar_Reader := λ reader,
  emit EvReadArchive ;; ret (tar_data reader).

#[export] Instance zip_ReadCloser_Reader : io_Reader zip_ReadCloser := λ reader,
  emit EvReadArchive ;; ret (zip_data reader).

Definition zip_File_Open (file : zip_File) : M (zip_ReadCloser + error) :=
  emit (EvZipOpen (zf_Name file)) ;; ret (zf_Open file).

Definition sha256_Sum256 (data : bytes) : M bytes :=
  emit (EvSum256 data) ;; ret (Sum256 data).

(** [filepath.Walk root walkFn]: [walkFn] is called for every visit and the
    walk ends with the first error [walkFn] returns.  [S] is the state the
    closure [walkFn] captures.  ([filepath.SkipDir] is not modelled: the
    callback of this program never returns it.) *)
Fixpoint walk_visits {S : Type} (walkFn : visit → S → S * option error)
    (vs : list visit) (c : S) : S * option error :=
  match vs with
  | [] => (c, None)
  | v :: vs' =>
      match walkFn v c with
      | (c', None) => walk_visits walkFn vs' c'
      | (c', Some err) => (c', Some err)
      end
  end.

Definition filepath_Walk {S : Type} (root : string)
    (walkFn : visit → S → S * option error) (c : S) : M (S * option error) :=
  λ s, let vs := sys_Walk root (fs s) in
       (emit (EvWalk root (length vs)) ;; ret (walk_visits walkFn vs c)) s.

(** [fmt.Sprintf] for formats whose only verb is [%s]. *)
Fixpoint Sprintf (format : string) (args : list string) : string :=
  match format with
  | "" => ""
  | String "%"%char (String "s"%char rest) =>
      match args with
      | a :: args' => a +:+ Sprintf rest args'
      | [] => "%!s(MISSING)" +:+ Sprintf rest []
      end
  | String c rest => String c (Sprintf rest args)
  end.

Definition fmt_Printf (format : string) (args : list string) : M unit :=
  emit (EvPrintf (Sprintf format args)).

(** [app.FatalIfError] of [kingpin]: on an error, the message is printed and
    the process exits with status 1. *)
Definition app_FatalIfError (err : option error) (msg : string) : M unit :=
  match err with
  | None => ret tt
  | Some e =>
      λ s, (Exited 1, mkState (fs s) (directories s) (trace s ++ [EvFatal msg e]))
  end.

(** The exit status of the process when [main] ends as [r]. *)
Definition exit_code (r : res unit) : Z :=
  match r with
  | Done _ => 0
  | Exited code => code
  end.

(** Modelled from the spec: the walkers of [github.com/calennert/archive]
    ([WalkTar], [WalkTarBzip2], [WalkTarGz], [WalkTarXz], [WalkZip]), whose code
    is not part of this repository.  A walker hands the entries of the archive
    to the callback one after the other, in the archive's order; it stops at
    the first error, of the callback or of the archive, and returns it. *)
Fixpoint walk_entries {E : Type} (callback : E → M (option error))
    (es : list E) (fail : option error) : M (option error) :=
  match es with
  | [] => ret fail
  | e :: es' =>
      err ← callback e;
      match err with
      | Some _ => ret err
      | None => walk_entries callback es' fail
      end
  end.

Definition walk_tar (flavour : archive_Type) (filename : string)
    (callback : tar_Reader → tar_Header → M (option error)) : M (option error) :=
  let l := tar_listing flavour filename in
  walk_entries (λ e, callback e.2 e.1) (entries l) (failure l).

Definition archive_WalkTar := walk_tar Tar.
Definition archive_WalkTarBzip2 := walk_tar TarBz2.
Definition archive_WalkTarGz := walk_tar TarGz.
Definition archive_WalkTarXz := walk_tar TarXz.

Definition archive_WalkZip (filename : string)
    (callback : zip_File → M (option error)) : M (option error) :=
  let l := zip_listing filename in
  walk_entries callback (entries l) (failure l).

End Program.

#[local] Notation "x ← y ; z" := (bind y (λ x : _, z))
  (at level 20, y at level 100, z at level 200, only parsing) : prog_scope.
#[local] Notation "' x ← y ; z" := (bind y (λ x : _, z))
  (at level 20, x pattern, y at level 100, z at level 200, only parsing)
  : prog_scope.
#[local] Notation "x ;; z" := (bind x (λ _, z))
  (at level 100, z at level 200, only parsing, right associativity)
  : prog_scope.
#[local] Open Scope prog_scope.

(** ** The tool (second version, with [--remove-dirs]) *)

Definition nl : string := String (ascii_of_nat 10) "".

Definition fmtFilename : string := "File: %s" +:+ nl.
Definition fmtDirname : string := "Dir : %s" +:+ nl.
Definition fmtExists : string := "      Exists : %s" +:+ nl.
Definition fmtEmpty : string := "      Empty  : %s" +:+ nl.
Definition fmtRemoved : string := "      Removed: %s%s" +:+ nl.

Definition reasonVerificationFailure : string := " (file failed verification)".
Definition reasonFileNotFound : string := " (file not found in target directory)".
Definition reasonDirNotFound : string := " (directory does not found)".

Definition errWalkError : string :=
  "An error occurred while walking the archive.".
Definition errDirRemovalError : string :=
  "An error occurred while attempting to remove a directory.".

Definition reverseStringSlice := list string.

(** [p.Less(i, j)]: Go compares strings byte by byte. *)
Definition Less (p : reverseStringSlice) (i j : nat) : bool :=
  String.ltb (p !!! j) (p !!! i).

(** [x] may stand before [y] in a slice sorted by [Less]: [y], behind, is not
    [Less] than [x]. *)
Definition in_order (x y : string) : Prop := Less [x; y] 1 0 = false.

#[global] Instance in_order_dec x y : Decision (in_order x y).
Proof. unfold in_order. apply _. Defined.

(** [sort.Sort]: the slice, ordered by its [Less].  (Two strings neither of
    which is [Less] than the other are equal, so that the order fixes the
    result.) *)
Definition sort_Sort (p : reverseStringSlice) : reverseStringSlice :=
  merge_sort in_order p.

Definition colorFunc := string → string.

Definition verifyCallback `{Env} := os_File → M (bool * option error).

Section Tool.
Context `{Env} (cfg : config).

(** [colorFuncs], as [init] fills it. *)
Definition colorFuncs : gmap string colorFunc :=
  <["cyan" := color_Sprint FgCyan]>
    (<["red" := color_Sprint FgRed]>
      (<["green" := color_Sprint FgGreen]> ∅)).

(** Calling [colorFuncs[key]]; calling the [nil] function of a missing key
    would panic, which [init] excludes (see [colorFuncs_lookup]). *)
Definition call_color (key : string) (value : string) : string :=
  match colorFuncs !! key with
  | Some f => f value
  | None => value
  end.

Definition cyan (value : string) : string :=
  if noColor cfg then value else call_color "cyan" value.

Definition green (value : string) : string :=
  if noColor cfg then value else call_color "green" value.

Definition red (value : string) : string :=
  if noColor cfg then value else call_color "red" value.

Definition printCaption (value : bool) : string :=
  if value then green "Yes" else red "No".

(** The decision of [removeFromTargetDir] (from [removed := false] to the end
    of the [if file != nil]): the error it returns, or the final values of
    the locals [removed] and [reason]. *)
Definition fileOutcome (file : option os_File) (verifyFunc : verifyCallback)
    : M (error + bool * string) :=
  match file with
  | Some f =>
      '(verified, err) ← verifyFunc f;
      match err with
      | Some e => ret (inl e)
      | None =>
          if verified then
            if negb (dryRun cfg) then
              err ← os_Remove (file_Name f);
              match err with
              | Some e => ret (inl e)
              | None => ret (inr (true, ""))
              end
            else ret (inr (false, ""))
          else ret (inr (false, reasonVerificationFailure))
      end
  | None => ret (inr (false, reasonFileNotFound))
  end.

Definition removeFromTargetDir (filename : string) (targetPath : string)
    (verifyFunc : verifyCallback) : M (option error) :=
  let path := Join targetPath filename in
  '(file, _) ← os_Open path;
  when (verbose cfg)
    (fmt_Printf fmtFilename [cyan filename] ;;
     fmt_Printf fmtExists [printCaption (bool_decide (is_Some file))]) ;;
  r ← fileOutcome file verifyFunc;
  match r with
  | inl err => ret (Some err)
  | inr (removed, reason) =>
      when (verbose cfg) (fmt_Printf fmtRemoved [printCaption removed; reason]) ;;
      ret None
  end.

Definition addDirectory (dirName : string) : M unit :=
  λ s, (Done tt, mkState (fs s) (directories s ++ [dirName]) (trace s)).

(** The closure [verifyFunc] of [tarCallback]. *)
Definition tarVerifyFunc (reader : tar_Reader) : verifyCallback := λ file,
  if verify cfg then
    r ← ioutil_ReadAll file;
    match r with
    | inr err => ret (false, Some err)
    | inl data =>
        targetSha256 ← sha256_Sum256 data;
        r ← ioutil_ReadAll reader;
        match r with
        | inr err => ret (false, Some err)
        | inl data =>
            archiveSha256 ← sha256_Sum256 data;
            ret (bool_decide (targetSha256 = archiveSha256), None)
        end
    end
  else ret (true, None).

Definition tarCallback (reader : tar_Reader) (header : tar_Header)
    : M (option error) :=
  if hdr_IsDir header then
    addDirectory (hdr_Name header) ;; ret None
  else
    removeFromTargetDir (hdr_Name header) (targetDir cfg) (tarVerifyFunc reader).

(** The closure [verifyFunc] of [zipCallback]. *)
Definition zipVerifyFunc (file : zip_File) : verifyCallback := λ targetFile,
  if verify cfg then
    r ← ioutil_ReadAll targetFile;
    match r with
    | inr err => ret (false, Some err)
    | inl data =>
        targetSha256 ← sha256_Sum256 data;
        r ← zip_File_Open file;
        match r with
        | inr err => ret (false, Some err)
        | inl reader =>
            r ← ioutil_ReadAll reader;
            match r with
            | inr err => ret (false, Some err)
            | inl data =>
                archiveSha256 ← sha256_Sum256 data;
                ret (bool_decide (targetSha256 = archiveSha256), None)
            end
        end
    end
  else ret (true, None).

Definition zipCallback (file : zip_File) : M (option error) :=
  if zf_IsDir file then
    addDirectory (zf_Name file) ;; ret None
  else
    removeFromTargetDir (zf_Name file) (targetDir cfg) (zipVerifyFunc file).

(** [dirs := reverseStringSlice(directories); sort.Sort(dirs)]: the conversion
    shares the array of the global slice, which is sorted in place. *)
Definition sort_directories : M reverseStringSlice :=
  λ s, let dirs := sort_Sort (directories s) in
       (Done dirs, mkState (fs s) dirs (trace s)).

(** The [walkFunc] of [removeEmptyDirectories], on the captured [count]. *)
Definition walkFunc (v : visit) (count : nat) : nat * option error :=
  (count + 1, None).

(** The final values of the locals [exists], [empty], [removed], [reason] of
    one iteration of the loop of [removeEmptyDirectories]. *)
Definition dirOutcome (path : string) (count : nat)
    : M (bool * bool * bool * string) :=
  if (count =? 1)%nat then
    if negb (dryRun cfg) then
      err ← os_Remove path;
      match err with
      | Some e =>
          if negb (os_IsNotExist e) then
            app_FatalIfError (Some e) errDirRemovalError ;;
            ret (true, true, false, "")
          else ret (false, true, false, reasonDirNotFound)
      | None => ret (true, true, true, "")
      end
    else ret (true, true, false, "")
  else ret (true, false, false, "").

(** One iteration of the loop of [removeEmptyDirectories]; [false] when the
    iteration returns from the function. *)
Definition sweepDirectory (d : string) : M bool :=
  let path := Join (targetDir cfg) d in
  when (verbose cfg) (fmt_Printf fmtDirname [cyan path]) ;;
  '(count, err) ← filepath_Walk path walkFunc 0;
  match err with
  | Some _ => ret false
  | None =>
      '(exists_, empty, removed, reason) ← dirOutcome path count;
      when (verbose cfg)
        (fmt_Printf fmtExists [printCaption exists_] ;;
         fmt_Printf fmtEmpty [printCaption empty] ;;
         fmt_Printf fmtRemoved [printCaption removed; reason]) ;;
      ret true
  end.

Fixpoint range_dirs (dirs : list string) : M unit :=
  match dirs with
  | [] => ret tt
  | d :: dirs' =>
      continue ← sweepDirectory d;
      if continue then range_dirs dirs' else ret tt
  end.

Definition removeEmptyDirectories : M unit :=
  dirs ← sort_directories;
  range_dirs dirs.

(** The archive pass: the [switch] of [main]. *)
Definition walkArchive : M (option error) :=
  let archiveFilename := archiveFile cfg in
  match archiveType cfg with
  | Tar => archive_WalkTar archiveFilename tarCallback
  | TarBz2 => archive_WalkTarBzip2 archiveFilename tarCallback
  | TarGz => archive_WalkTarGz archiveFilename tarCallback
  | TarXz => archive_WalkTarXz archiveFilename tarCallback
  | Zip => archive_WalkZip archiveFilename zipCallback
  end.

Definition main : M unit :=
  err ← walkArchive;
  match err with
  | Some _ => app_FatalIfError err errWalkError
  | None => ret tt
  end ;;
  if removeDirs cfg then removeEmptyDirectories else ret tt.

End Tool.

(** ** The tool, first version (without [--remove-dirs])

    [fileOutcome] and the two [verifyFunc] closures have the same text in
    both versions and are shared. *)

Module Legacy.
Section Tool.
Context `{Env} (cfg : config).

Definition green : colorFunc := color_Sprint FgGreen.
Definition red : colorFunc := color_Sprint FgRed.
Definition cyan : colorFunc := color_Sprint FgCyan.

Definition printCaption (value : bool) : string :=
  if noColor cfg then
    if value then "Yes" else "No"
  else
    if value then green "Yes" else red "No".

Definition removeFromTargetDir (filename : string) (targetPath : string)
    (verifyFunc : verifyCallback) : M (option error) :=
  let path := Join targetPath filename in
  '(file, _) ← os_Open path;
  when (verbose cfg)
    ((if noColor cfg then fmt_Printf fmtFilename [filename]
      else fmt_Printf fmtFilename [cyan filename]) ;;
     fmt_Printf fmtExists [printCaption (bool_decide (is_Some file))]) ;;
  r ← fileOutcome cfg file verifyFunc;
  match r with
  | inl err => ret (Some err)
  | inr (removed, reason) =>
      when (verbose cfg) (fmt_Printf fmtRemoved [printCaption removed; reason]) ;;
      ret None
  end.

Definition tarCallback (reader : tar_Reader) (header : tar_Header)
    : M (option error) :=
  if hdr_IsDir header then ret None
  else
    removeFromTargetDir (hdr_Name header) (targetDir cfg)
      (tarVerifyFunc cfg reader).

Definition zipCallback (file : zip_File) : M (option error) :=
  if zf_IsDir file then ret None
  else
    removeFromTargetDir (zf_Name file) (targetDir cfg) (zipVerifyFunc cfg file).

Definition walkArchive : M (option error) :=
  let archiveFilename := archiveFile cfg in
  match archiveType cfg with
  | Tar => archive_WalkTar archiveFilename tarCallback
  | TarBz2 => archive_WalkTarBzip2 archiveFilename tarCallback
  | TarGz => archive_WalkTarGz archiveFilename tarCallback
  | TarXz => archive_WalkTarXz archiveFilename tarCallback
  | Zip => archive_WalkZip archiveFilename zipCallback
  end.

Definition main : M unit :=
  err ← walkArchive;
  match err with
  | Some _ => app_FatalIfError err errWalkError
  | None => ret tt
  end.

End Tool.
End Legacy.

(** ** Reading a run *)

Section Observations.
Context `{Env}.

(** The calls made between state [s] and the later state [s']. *)
Definition since (s s' : state) : list event :=
  drop (length (trace s)) (trace s').

(** The flag [verified] a verification callback returned. *)
Definition verdict (r : res (bool * option error)) : bool :=
  match r with
  | Done (verified, _) => verified
  | Exited _ => false
  end.

(** The error a callback returned, if it returned one. *)
Definition returned_error {A : Type} (r : res (A * option error)) : option error :=
  match r with
  | Done (_, err) => err
  | Exited _ => None
  end.

(** The state [s] with the calls [d] added to its trace. *)
Definition extend (s : state) (d : list event) : state :=
  mkState (fs s) (directories s) (trace s ++ d).

(** The calls with which [removeFromTargetDir] begins: [os.Open] on the
    resolved path and, with [--verbose], the first two lines of the report. *)
Definition opening (cfg : config) (filename : string) (ok : bool) : list event :=
  EvOpen (Join (targetDir cfg) filename) ok ::
  if verbose cfg then
    [EvPrintf (Sprintf fmtFilename [cyan cfg filename]);
     EvPrintf (Sprintf fmtExists [printCaption cfg ok])]
  else [].

(** The last line of the report on a file, printed with [--verbose]. *)
Definition report (cfg : config) (removed : bool) (reason : string)
    : list event :=
  if verbose cfg then
    [EvPrintf (Sprintf fmtRemoved [printCaption cfg removed; reason])]
  else [].

(** The first line of the report on a directory. *)
Definition dir_header (cfg : config) (path : string) : list event :=
  if verbose cfg then [EvPrintf (Sprintf fmtDirname [cyan cfg path])] else [].

(** The last three lines of the report on a directory. *)
Definition dir_report (cfg : config) (exists_ empty removed : bool)
    (reason : string) : list event :=
  if verbose cfg then
    [EvPrintf (Sprintf fmtExists [printCaption cfg exists_]);
     EvPrintf (Sprintf fmtEmpty [printCaption cfg empty]);
     EvPrintf (Sprintf fmtRemoved [printCaption cfg removed; reason])]
  else [].

(** The roots of the walks in a trace, in order. *)
Definition walk_roots (d : list event) : list string :=
  omap (λ ev, match ev with EvWalk root _ => Some root | _ => None end) d.

(** The number of elements of a slash-separated path. *)
Fixpoint depth (path : string) : nat :=
  match path with
  | "" => 1
  | String "/"%char rest => S (depth rest)
  | String _ rest => depth rest
  end.

(** An archive entry, as either kind of walker hands it to its callback. *)
Inductive entry :=
| TarEntry (header : tar_Header) (reader : tar_Reader)
| ZipEntry (file : zip_File).

Definition entry_Name (e : entry) : string :=
  match e with
  | TarEntry header _ => hdr_Name header
  | ZipEntry file => zf_Name file
  end.

Definition entry_IsDir (e : entry) : bool :=
  match e with
  | TarEntry header _ => hdr_IsDir header
  | ZipEntry file => zf_IsDir file
  end.

(** What reading the whole content of the entry yields (a zip entry is
    opened first). *)
Definition entry_content (e : entry) : bytes + error :=
  match e with
  | TarEntry _ reader => tar_data reader
  | ZipEntry file =>
      match zf_Open file with
      | inl reader => zip_data reader
      | inr err => inr err
      end
  end.

(** The calls that fetch the content of an entry during verification. *)
Definition entry_fetch (e : entry) : list event :=
  match e with
  | TarEntry _ _ => [EvReadArchive]
  | ZipEntry file =>
      EvZipOpen (zf_Name file) ::
      match zf_Open file with
      | inl _ => [EvReadArchive]
      | inr _ => []
      end
  end.

Definition entry_verifyFunc (cfg : config) (e : entry) : verifyCallback :=
  match e with
  | TarEntry _ reader => tarVerifyFunc cfg reader
  | ZipEntry file => zipVerifyFunc cfg file
  end.

Definition callback (cfg : config) (e : entry) : M (option error) :=
  match e with
  | TarEntry header reader => tarCallback cfg reader header
  | ZipEntry file => zipCallback cfg file
  end.

Definition legacy_callback (cfg : config) (e : entry) : M (option error) :=
  match e with
  | TarEntry header reader => Legacy.tarCallback cfg reader header
  | ZipEntry file => Legacy.zipCallback cfg file
  end.

(** The entries the walker selected by [archiveType] yields, and the error
    that ends its traversal early. *)
Definition archive_entries (cfg : config) : list entry :=
  match archiveType cfg with
  | Zip => ZipEntry <$> entries (zip_listing (archiveFile cfg))
  | flavour =>
      (λ e, TarEntry e.1 e.2) <$> entries (tar_listing flavour (archiveFile cfg))
  end.

Definition archive_failure (cfg : config) : option error :=
  match archiveType cfg with
  | Zip => failure (zip_listing (archiveFile cfg))
  | flavour => failure (tar_listing flavour (archiveFile cfg))
  end.

(** In a trace, every call of [os.Remove] comes right after a walk of the
    same path that visited exactly one entry. *)
Definition removal_guarded (d : list event) : Prop :=
  ∀ before p ok after,
    d = before ++ EvRemove p ok :: after →
    ∃ before', before = before' ++ [EvWalk p 1].

(** In a trace, every walk that did not visit exactly one entry is followed
    by the report of a directory that exists, is not empty and was not
    removed, and not by a call of [os.Remove]. *)
Definition nonempty_reported (cfg : config) (d : list event) : Prop :=
  ∀ before p n after,
    d = before ++ EvWalk p n :: after → n ≠ 1 →
    ∃ rest, after = dir_report cfg true false false "" ++ rest ∧
            ∀ q ok rest', rest ≠ EvRemove q ok :: rest'.

(** What [main] does once the archive pass has returned [err]. *)
Definition finish (cfg : config) (err : option error) : M unit :=
  match err with
  | Some _ => app_FatalIfError err errWalkError
  | None => ret tt
  end ;;
  if removeDirs cfg then removeEmptyDirectories cfg else ret tt.

(** [main] on an archive that yields the entries [es] and then [fail]. *)
Definition run_on (cfg : config) (es : list entry) (fail : option error)
    : M unit :=
  err ← walk_entries (callback cfg) es fail;
  finish cfg err.

(** Two states with the same file system and the same recorded directories. *)
Definition same_disk (s s' : state) : Prop :=
  fs s = fs s' ∧ directories s = directories s'.

(** [traced P m]: what [m] does depends on the file system and on
    [directories] only, not on the calls made so far; [m] adds calls to the
    trace, all of which satisfy [P]; and the file system changes only if one
    of the calls is an [os.Remove]. *)
Definition traced {A : Type} (P : event → Prop) (m : M A) : Prop :=
  ∀ w dirs, ∃ r w' dirs' d,
    (∀ t, m (mkState w dirs t) = (r, mkState w' dirs' (t ++ d))) ∧
    Forall P d ∧
    (Forall (λ e, is_remove e = false) d → w' = w).

(** The conditions under which the calls of the callback on [e] satisfy
    [P]. *)
Definition admits_entry (cfg : config) (P : event → Prop) (e : entry) : Prop :=
  (∀ ev, is_file_step ev = true → P ev) ∧
  (∀ text, P (EvPrintf text)) ∧
  (entry_IsDir e = false → dryRun cfg = false →
   ∀ ok, P (EvRemove (Join (targetDir cfg) (entry_Name e)) ok)).

(** The conditions under which the calls of the sweep of [d] satisfy [P]. *)
Definition admits_directory (cfg : config) (P : event → Prop) (d : string)
    : Prop :=
  (∀ text, P (EvPrintf text)) ∧
  (∀ n, P (EvWalk (Join (targetDir cfg) d) n)) ∧
  (∀ e, P (EvFatal errDirRemovalError e)) ∧
  (dryRun cfg = false → ∀ ok, P (EvRemove (Join (targetDir cfg) d) ok)).

(** The calls the archive pass may make: no walk of a directory, and
    [os.Remove] only on the resolved path of a file entry of the archive. *)
Definition pass_event (cfg : config) (ev : event) : Prop :=
  is_walk ev = false ∧
  ∀ p ok, ev = EvRemove p ok →
    ∃ e, e ∈ archive_entries cfg ∧ entry_IsDir e = false ∧
         p = Join (targetDir cfg) (entry_Name e).

End Observations.

(** ** An in-memory file system

    One implementation of [Env], to run the tool on examples.  A path names a
    regular file (with its contents and whether it may be opened) or a
    directory; the children of a directory are the paths below it. *)

Module MemFS.

Inductive node :=
| RegularFile (content : bytes) (readable : bool)
| Directory.

Definition ENOENT : error := mkError "no such file or directory" true.
Definition EACCES : error := mkError "permission denied" false.
Definition EISDIR : error := mkError "is a directory" false.
Definition ENOTEMPTY : error := mkError "directory not empty" false.

Definition below (dir : string) (p : string) : bool :=
  String.prefix (dir +:+ "/") p.

Definition descendants (dir : string) (w : gmap string node) : list string :=
  filter (λ p, below dir p = true) (map_to_list w).*1.

Definition open (p : string) (w : gmap string node) : option error :=
  match w !! p with
  | None => Some ENOENT
  | Some (RegularFile _ false) => Some EACCES
  | Some _ => None
  end.

Definition read_all (p : string) (w : gmap string node) : bytes + error :=
  match w !! p with
  | None => inr ENOENT
  | Some (RegularFile content true) => inl content
  | Some (RegularFile _ false) => inr EACCES
  | Some Directory => inr EISDIR
  end.

Definition remove (p : string) (w : gmap string node)
    : gmap string node + error :=
  match w !! p with
  | None => inr ENOENT
  | Some Directory =>
      match descendants p w with
      | [] => inl (delete p w)
      | _ :: _ => inr ENOTEMPTY
      end
  | Some (RegularFile _ _) => inl (delete p w)
  end.

(** [filepath.Walk] calls its callback once on a root that does not exist,
    with the error of [os.Lstat]. *)
Definition walk (root : string) (w : gmap string node) : list visit :=
  match w !! root with
  | None => [mkVisit root (Some ENOENT)]
  | Some (RegularFile _ _) => [mkVisit root None]
  | Some Directory =>
      mkVisit root None :: ((λ p, mkVisit p None) <$> descendants root w)
  end.

Fixpoint trim_slash (rev_path : list ascii) : list ascii :=
  match rev_path with
  | "/"%char :: rest => trim_slash rest
  | _ => rev_path
  end.

(** Enough of [filepath.Join] for paths without [.] and [..] elements and
    without doubled separators: the elements are joined by one separator and
    trailing separators are dropped. *)
Definition join (dir name : string) : string :=
  string_of_list_ascii
    (rev (trim_slash (rev (list_ascii_of_string (dir +:+ "/" +:+ name))))).

Definition esc : string := String (ascii_of_nat 27) "".

Definition sprint (attr : color_Attribute) (value : string) : string :=
  let code := match attr with
              | FgGreen => "32"
              | FgRed => "31"
              | FgCyan => "36"
              end in
  esc +:+ "[" +:+ code +:+ "m" +:+ value +:+ esc +:+ "[0m".

(** The digest is the data itself: an injective stand-in for SHA-256. *)
Definition env (tars : listing (tar_Header * tar_Reader))
    (zips : listing zip_File) : Env := {|
  world := gmap string node;
  sys_Open := open;
  sys_ReadAll := read_all;
  sys_Remove := remove;
  sys_Walk := walk;
  Join := join;
  Sum256 := id;
  color_Sprint := sprint;
  tar_listing := λ _ _, tars;
  zip_listing := λ _, zips
|}.

Definition start `{Env} (w : world) : state := mkState w [] [].

End MemFS.

(** ** A small installation

    The archive [a.tar] holds the directory [dir/] and the file
    [dir/file.txt] with content [hello]; it is removed from the target
    directory [t], in several states of that directory. *)

Module Example.
Import MemFS.

Definition hello : bytes := list_byte_of_string "hello".
Definition goodbye : bytes := list_byte_of_string "goodbye".

Definition dir_entry : entry :=
  TarEntry (mkTarHeader "dir/" true) (mkTarReader (inl [])).

Definition file_entry : entry :=
  TarEntry (mkTarHeader "dir/file.txt" false) (mkTarReader (inl hello)).

(** The same file in an archive damaged so that its content is unreadable. *)
Definition damaged_entry : entry :=
  TarEntry (mkTarHeader "dir/file.txt" false)
    (mkTarReader (inr (mkError "unexpected EOF" false))).

Definition a_tar : listing (tar_Header * tar_Reader) :=
  mkListing
    [(mkTarHeader "dir/" true, mkTarReader (inl []));
     (mkTarHeader "dir/file.txt" false, mkTarReader (inl hello))]
    None.

Definition a_zip : listing zip_File :=
  mkListing
    [mkZipFile "dir/" true (inl (mkZipReader (inl [])));
     mkZipFile "dir/file.txt" false (inl (mkZipReader (inl hello)))]
    None.

Definition platform : Env := env a_tar a_zip.

(** [--verbose --no-color], the archive [a.tar] and the target [t], with the
    given [--dry-run], [--remove-dirs] and [--verify]. *)
Definition flags (dry remove_dirs verifying : bool) : config :=
  mkConfig true dry remove_dirs verifying true Tar "a.tar" "t".

Definition installed_with (file : node) : gmap string node :=
  <["t/dir/file.txt" := file]> (<["t/dir" := Directory]> (<["t" := Directory]> ∅)).

(** The target holds the file as the archive has it. *)
Definition installed : gmap string node :=
  installed_with (RegularFile hello true).

(** The file was changed after the installation. *)
Definition modified : gmap string node :=
  installed_with (RegularFile goodbye true).

(** The file may not be opened. *)
Definition locked : gmap string node :=
  installed_with (RegularFile hello false).

(** A directory stands where the file should be: it can be opened, not
    read. *)
Definition replaced : gmap string node := installed_with Directory.

(** The file is not there. *)
Definition missing : gmap string node :=
  <["t/dir" := Directory]> (<["t" := Directory]> ∅).

Definition begin (w : gmap string node) : @state platform :=
  @start platform w.

(** The platform with an archive whose file cannot be read. *)
Definition damaged_platform : Env :=
  env (mkListing
         [(mkTarHeader "dir/" true, mkTarReader (inl []));
          (mkTarHeader "dir/file.txt" false,
           mkTarReader (inr (mkError "unexpected EOF" false)))]
         None)
    a_zip.

(** The state of the pass after the directory entry [dir/]. *)
Definition recorded (w : gmap string node) : @state platform :=
  @mkState platform w ["dir/"] [].

(** A state of the pass with two recorded directories. *)
Definition two_recorded (w : gmap string node) : @state platform :=
  @mkState platform w ["dir/"; "etc/"] [].

End Example.

(** ** Further observations on a run *)

(** [p.Len()]. *)
Definition Len (p : reverseStringSlice) : nat := length p.

(** [p.Swap(i, j)]: [None] is the panic of an index out of range. *)
Definition Swap (p : reverseStringSlice) (i j : nat)
    : option reverseStringSlice :=
  match p !! i, p !! j with
  | Some x, Some y => Some (<[i := y]> (<[j := x]> p))
  | _, _ => None
  end.

(** The configuration with [--verbose] switched off. *)
Definition quiet (cfg : config) : config :=
  mkConfig false (dryRun cfg) (removeDirs cfg) (verify cfg) (noColor cfg)
    (archiveType cfg) (archiveFile cfg) (targetDir cfg).

(** Two configurations that differ at most in [--verbose] and
    [--no-color]. *)
Definition same_task (cfg cfg' : config) : Prop :=
  dryRun cfg = dryRun cfg' ∧ removeDirs cfg = removeDirs cfg' ∧
  verify cfg = verify cfg' ∧ archiveType cfg = archiveType cfg' ∧
  archiveFile cfg = archiveFile cfg' ∧ targetDir cfg = targetDir cfg'.

Section MoreObservations.
Context `{Env}.

(** The calls of a trace other than the lines printed. *)
Definition calls (d : list event) : list event :=
  filter (λ ev, is_printf ev = false) d.

(** The paths handed to [os.Remove] in a trace, in order. *)
Definition removals (d : list event) : list string :=
  omap (λ ev, match ev with EvRemove p _ => Some p | _ => None end) d.

(** [quiets m m']: [m'] does what [m] does, and prints besides. *)
Definition quiets {A : Type} (m m' : M A) : Prop :=
  ∀ w dirs, ∃ r w' dirs' d d',
    (∀ t, m (mkState w dirs t) = (r, mkState w' dirs' (t ++ d))) ∧
    (∀ t, m' (mkState w dirs t) = (r, mkState w' dirs' (t ++ d'))) ∧
    d = calls d'.

(** [m] only prints: it returns, with the file system and the directories
    as they were, and its calls are lines printed. *)
Definition prints_only (m : M unit) : Prop :=
  ∀ w dirs, ∃ d,
    (∀ t, m (mkState w dirs t) = (Done tt, mkState w dirs (t ++ d))) ∧
    calls d = [].


(** The names of the directory entries among [es], in order. *)
Definition dir_names (es : list entry) : list string :=
  entry_Name <$> filter (λ e, entry_IsDir e = true) es.

(** The verification of entry [e] against the file system [w] passes:
    [--verify] is off, or both contents are read and their digests agree. *)
Definition verifies (cfg : config) (e : entry) (w : world) : Prop :=
  verify cfg = false ∨
  ∃ target content,
    sys_ReadAll (Join (targetDir cfg) (entry_Name e)) w = inl target ∧
    entry_content e = inl content ∧
    Sum256 target = Sum256 content.

(** Once a path has been removed, it cannot be opened. *)
Definition removed_is_gone : Prop :=
  ∀ p w w', sys_Remove p w = inl w' → sys_Open p w' ≠ None.

End MoreObservations.

(** ** More states of the small installation *)

Module Cases.
Import MemFS Example.

(** A directory that is not empty stands where the file should be. *)
Definition occupied : gmap string node :=
  <["t/dir/file.txt/note" := RegularFile hello true]> replaced.

Definition EROFS : error := mkError "read-only file system" false.

(** The platform on a file system mounted read-only. *)
Definition read_only_platform : Env := {|
  world := gmap string node;
  sys_Open := open;
  sys_ReadAll := read_all;
  sys_Remove := λ _ _, inr EROFS;
  sys_Walk := walk;
  Join := join;
  Sum256 := id;
  color_Sprint := sprint;
  tar_listing := λ _ _, a_tar;
  zip_listing := λ _, a_zip
|}.

(** The platform with an archive that lists two directories and no file. *)
Definition directories_platform : Env :=
  env (mkListing
         [(mkTarHeader "dir/" true, mkTarReader (inl []));
          (mkTarHeader "etc/" true, mkTarReader (inl []))]
         None)
    a_zip.

(** A state of the pass in which a directory absent from the target was
    recorded. *)
Definition gone_recorded : @state platform :=
  @mkState platform missing ["gone/"] [].

(** The state of the sweep on the read-only file system. *)
Definition read_only_recorded : @state read_only_platform :=
  @mkState read_only_platform missing ["dir/"] [].

End Cases.

(** * Properties *)

Section Basics.
Context `{Env}.

Lemma since_app (s s' : state) (d : list event) :
  trace s' = trace s ++ d → since s s' = d.
Proof. intros Ht. unfold since. rewrite Ht. apply drop_app_length. Qed.

Lemma since_refl (s : state) : since s s = [].
Proof. apply since_app. by rewrite app_nil_r. Qed.

Lemma since_extend (s : state) (d : list event) : since s (extend s d) = d.
Proof. by apply since_app. Qed.

Lemma extend_nil (s : state) : extend s [] = s.
Proof. destruct s. unfold extend. cbn. by rewrite app_nil_r. Qed.

Lemma extend_extend (s : state) (d1 d2 : list event) :
  extend (extend s d1) d2 = extend s (d1 ++ d2).
Proof. unfold extend. cbn. by rewrite app_assoc. Qed.

Lemma colorFuncs_lookup :
  colorFuncs !! "green" = Some (color_Sprint FgGreen) ∧
  colorFuncs !! "red" = Some (color_Sprint FgRed) ∧
  colorFuncs !! "cyan" = Some (color_Sprint FgCyan).
Proof. done. Qed.

Lemma legacy_printCaption (cfg : config) (value : bool) :
  Legacy.printCaption cfg value = printCaption cfg value.
Proof.
  unfold Legacy.printCaption, printCaption, green, red.
  by destruct (noColor cfg), value.
Qed.

(** The two versions of [removeFromTargetDir] are the same function. *)
Lemma legacy_removeFromTargetDir (cfg : config) (filename targetPath : string)
    (verifyFunc : verifyCallback) (s : state) :
  Legacy.removeFromTargetDir cfg filename targetPath verifyFunc s =
  removeFromTargetDir cfg filename targetPath verifyFunc s.
Proof.
  unfold Legacy.removeFromTargetDir, removeFromTargetDir.
  assert (Hc : (if noColor cfg then fmt_Printf fmtFilename [filename]
                else fmt_Printf fmtFilename [Legacy.cyan filename]) =
               fmt_Printf fmtFilename [cyan cfg filename]).
  { unfold cyan. by destruct (noColor cfg). }
  rewrite Hc. unfold bind.
  destruct (os_Open _ s) as [[[file err]|] s1]; [|done].
  rewrite legacy_printCaption.
  destruct (when _ _ s1) as [[[]|] s2]; [|done].
  destruct (fileOutcome _ _ _ s2) as [[[?|[removed reason]]|] s3]; try done.
  by rewrite legacy_printCaption.
Qed.

(** On a file entry, the callbacks of the two versions are the same. *)
Lemma legacy_callback_file (cfg : config) (e : entry) (s : state) :
  entry_IsDir e = false → legacy_callback cfg e s = callback cfg e s.
Proof.
  destruct e; cbn; intros Hd.
  - unfold Legacy.tarCallback, tarCallback. rewrite Hd.
    apply legacy_removeFromTargetDir.
  - unfold Legacy.zipCallback, zipCallback. rewrite Hd.
    apply legacy_removeFromTargetDir.
Qed.

End Basics.

(** Runs a straight-line piece of the program: unfolds the monad and the
    library calls, and splits on the scrutinee of every [match] it meets. *)
Ltac unfold_prog :=
  unfold bind, ret, when, fmt_Printf, emit, os_Open, os_Remove,
    ioutil_ReadAll, os_File_Reader, tar_Reader_Reader, zip_ReadCloser_Reader,
    zip_File_Open, sha256_Sum256, filepath_Walk, app_FatalIfError,
    addDirectory in *.

Ltac split_match :=
  match goal with
  | |- context [match ?x with _ => _ end] =>
      lazymatch x with
      | context [match _ with _ => _ end] => fail
      | _ => destruct x eqn:?
      end
  end.

Ltac run_prog :=
  repeat (progress (unfold_prog;
                    cbn [fst snd fs trace directories negb verdict
                         returned_error file_Name] in *;
                    simplify_eq)
          || split_match).

(** Reads [since s s'] off a state [s'] whose trace is the trace of [s] with
    calls added. *)
Ltac read_since :=
  unfold since; cbn [trace]; rewrite <- ?app_assoc;
  rewrite ?drop_app_length, ?drop_all; cbn [app].

(** Goes through the members of an explicit list of calls. *)
Ltac each_member H :=
  repeat (apply elem_of_cons in H as [H|H]; [simplify_eq|]);
  try (by apply elem_of_nil in H).

Ltac not_member :=
  rewrite ?not_elem_of_cons; split_and?; try done; try apply not_elem_of_nil.

Section Verification.
Context `{Env} (cfg : config).

(** C2. With [--verify], the verification callback of a tar entry and that of
    a zip entry answer [true] exactly when both contents could be read to the
    end and the SHA-256 digest of the target file equals that of the archive
    entry; they leave the file system as it is.  Without [--verify], they
    answer [true] and do nothing at all: nothing is read, nothing is hashed. *)
Theorem verify_callback_is_digest_equality (s : state) (file : os_File) :
  (∀ reader : tar_Reader,
     let r := tarVerifyFunc cfg reader file s in
     if verify cfg then
       (verdict r.1 = true ↔
          ∃ target entry,
            sys_ReadAll (file_Name file) (fs s) = inl target ∧
            tar_data reader = inl entry ∧
            Sum256 target = Sum256 entry) ∧
       (verdict r.1 = true → returned_error r.1 = None) ∧
       fs r.2 = fs s
     else r = (Done (true, None), s)) ∧
  (∀ zfile : zip_File,
     let r := zipVerifyFunc cfg zfile file s in
     if verify cfg then
       (verdict r.1 = true ↔
          ∃ target reader entry,
            sys_ReadAll (file_Name file) (fs s) = inl target ∧
            zf_Open zfile = inl reader ∧
            zip_data reader = inl entry ∧
            Sum256 target = Sum256 entry) ∧
       (verdict r.1 = true → returned_error r.1 = None) ∧
       fs r.2 = fs s
     else r = (Done (true, None), s)).
Proof.
  split; intros; subst r.
  - unfold tarVerifyFunc. destruct (verify cfg); [|done].
    run_prog; rewrite ?bool_decide_eq_true; repeat split; try done.
    all: try by eexists _, _.
    all: intros (? & ? & ? & ? & ?); simplify_eq; congruence.
  - unfold zipVerifyFunc. destruct (verify cfg); [|done].
    run_prog; rewrite ?bool_decide_eq_true; repeat split; try done.
    all: try by eexists _, _, _.
    all: intros (? & ? & ? & ? & ? & ? & ?); simplify_eq; congruence.
Qed.

End Verification.

Section FileDecision.
Context `{Env} (cfg : config).

Lemma removed_flag (file : option os_File) (verifyFunc : verifyCallback)
    (reason : string) (s s' : state) :
  fileOutcome cfg file verifyFunc s = (Done (inr (true, reason)), s') →
  dryRun cfg = false ∧
  ∃ f s1, file = Some f ∧ verifyFunc f s = (Done (true, None), s1) ∧
          sys_Remove (file_Name f) (fs s1) = inl (fs s').
Proof.
  unfold fileOutcome. destruct file as [f|]; [|by run_prog].
  unfold bind at 1. destruct (verifyFunc f s) as [[[v [e|]]|] s1] eqn:Hv;
    [by run_prog| |by run_prog].
  destruct v; [|by run_prog].
  destruct (dryRun cfg); [by run_prog|].
  cbn [negb]. intros Hr. split; [done|]. exists f, s1.
  split_and!; [done..|]. revert Hr. run_prog; intros; by simplify_eq/=.
Qed.

(** C1. The verdict on a file: the local [removed] ends [true] only if the
    file was there, the verification callback answered [true] without an
    error, and [--dry-run] is off; and then the file was deleted.  For the
    callbacks of both versions of the tool, a call of [os.Remove] is made
    only for the resolved path of the entry, only if [os.Open] succeeded on
    it, the verification callback answers [true] and [--dry-run] is off.
    With [--verify], a target file whose digest differs from the digest of
    the archive entry is not deleted, whatever [--dry-run] is: no
    [os.Remove] is called and the file system is as before. *)
Theorem removed_only_if_present_verified_and_not_dry_run (s : state) :
  (∀ file verifyFunc reason s',
     fileOutcome cfg file verifyFunc s = (Done (inr (true, reason)), s') →
     dryRun cfg = false ∧
     ∃ f s1, file = Some f ∧ verifyFunc f s = (Done (true, None), s1) ∧
             sys_Remove (file_Name f) (fs s1) = inl (fs s')) ∧
  (∀ cb e,
     cb = callback cfg ∨ cb = legacy_callback cfg →
     entry_IsDir e = false →
     let path := Join (targetDir cfg) (entry_Name e) in
     let r := cb e s in
     (∀ p ok, EvRemove p ok ∈ since s r.2 →
        p = path ∧
        sys_Open path (fs s) = None ∧
        verdict (entry_verifyFunc cfg e (mkFile path) s).1 = true ∧
        dryRun cfg = false) ∧
     (fs r.2 ≠ fs s → EvRemove path true ∈ since s r.2) ∧
     (∀ target content,
        verify cfg = true →
        sys_ReadAll path (fs s) = inl target →
        entry_content e = inl content →
        Sum256 target ≠ Sum256 content →
        fs r.2 = fs s ∧ ∀ p ok, EvRemove p ok ∉ since s r.2)).
Proof.
  split; [intros *; apply removed_flag|].
  intros cb e Hcb Hdir path r.
  assert (r = callback cfg e s) as Hr.
  { subst r. destruct Hcb as [->| ->]; [done|]. by apply legacy_callback_file. }
  clearbody r. subst r. clear Hcb cb.
  subst path.
  assert (Hrun : callback cfg e s =
            removeFromTargetDir cfg (entry_Name e) (targetDir cfg)
              (entry_verifyFunc cfg e) s).
  { destruct e; cbn in Hdir |- *;
      unfold tarCallback, zipCallback; by rewrite Hdir. }
  rewrite Hrun. clear Hrun Hdir.
  unfold removeFromTargetDir, fileOutcome.
  split_and!.
  - destruct e; cbn [entry_verifyFunc entry_Name];
      unfold tarVerifyFunc, zipVerifyFunc.
    all: run_prog; read_since; intros p ok Hin; each_member Hin.
    all: cbn [file_Name] in *; split_and!; try done.
    all: by apply negb_true_iff.
  - destruct e; cbn [entry_verifyFunc entry_Name];
      unfold tarVerifyFunc, zipVerifyFunc.
    all: run_prog; read_since; try done.
    all: intros _; set_solver.
  - intros target content Hv Ht Hc Hne.
    destruct e; cbn [entry_verifyFunc entry_Name entry_content] in *;
      unfold tarVerifyFunc, zipVerifyFunc; rewrite Hv.
    all: run_prog; read_since; try (by case_bool_decide).
    all: try (by case_bool_decide).
    all: split; [done|]; intros p ok; not_member.
Qed.

End FileDecision.

(** ** Computations that only add to the trace *)

Section Tracing.
Context `{Env}.

Lemma traced_mono {A : Type} (P Q : event → Prop) (m : M A) :
  (∀ e, P e → Q e) → traced P m → traced Q m.
Proof.
  intros HPQ Hm w dirs. destruct (Hm w dirs) as (r & w' & dirs' & d & ? & ? & ?).
  exists r, w', dirs', d. split_and!; [done| |done].
  by eapply Forall_impl.
Qed.

Lemma traced_ret {A : Type} (P : event → Prop) (a : A) : traced P (ret a).
Proof.
  intros w dirs. exists (Done a), w, dirs, []. split_and!; [|done..].
  intros t. by rewrite app_nil_r.
Qed.

Lemma traced_bind {A B : Type} (P : event → Prop) (m : M A) (k : A → M B) :
  traced P m → (∀ a, traced P (k a)) → traced P (bind m k).
Proof.
  intros Hm Hk w dirs.
  destruct (Hm w dirs) as (r & w1 & dirs1 & d1 & Hrun1 & HP1 & Hfs1).
  destruct r as [a|code].
  - destruct (Hk a w1 dirs1) as (r & w2 & dirs2 & d2 & Hrun2 & HP2 & Hfs2).
    exists r, w2, dirs2, (d1 ++ d2). split_and!.
    + intros t. unfold bind. by rewrite Hrun1, Hrun2, app_assoc.
    + by apply Forall_app.
    + intros [??]%Forall_app. rewrite Hfs2, Hfs1; done.
  - exists (Exited code), w1, dirs1, d1. split_and!; [|done..].
    intros t. unfold bind. by rewrite Hrun1.
Qed.

(** The same, when the continuation is only traced on the values [m] can
    return. *)
Lemma traced_bind_post {A B : Type} (P : event → Prop) (Q : A → Prop)
    (m : M A) (k : A → M B) :
  traced P m → (∀ s a s', m s = (Done a, s') → Q a) →
  (∀ a, Q a → traced P (k a)) → traced P (bind m k).
Proof.
  intros Hm HQ Hk w dirs.
  destruct (Hm w dirs) as (r & w1 & dirs1 & d1 & Hrun1 & HP1 & Hfs1).
  destruct r as [a|code].
  - destruct (Hk a (HQ _ _ _ (Hrun1 [])) w1 dirs1)
      as (r & w2 & dirs2 & d2 & Hrun2 & HP2 & Hfs2).
    exists r, w2, dirs2, (d1 ++ d2). split_and!.
    + intros t. unfold bind. by rewrite Hrun1, Hrun2, app_assoc.
    + by apply Forall_app.
    + intros [??]%Forall_app. rewrite Hfs2, Hfs1; done.
  - exists (Exited code), w1, dirs1, d1. split_and!; [|done..].
    intros t. unfold bind. by rewrite Hrun1.
Qed.

Lemma traced_emit (P : event → Prop) (e : event) :
  P e → is_remove e = false → traced P (emit e).
Proof.
  intros HP Hq w dirs. exists (Done tt), w, dirs, [e].
  split_and!; [done| |done]. by apply Forall_singleton.
Qed.

Lemma traced_when (P : event → Prop) (b : bool) (m : M unit) :
  traced P m → traced P (when b m).
Proof. destruct b; [done|]. intros _. apply traced_ret. Qed.

Lemma traced_fmt_Printf (P : event → Prop) (format : string) (args : list string) :
  (∀ text, P (EvPrintf text)) → traced P (fmt_Printf format args).
Proof. intros HP. by apply traced_emit. Qed.

Lemma traced_os_Open (P : event → Prop) (name : string) :
  (∀ ok, P (EvOpen name ok)) → traced P (os_Open name).
Proof.
  intros HP w dirs. unfold os_Open. cbn [fs].
  destruct (sys_Open name w) as [err|].
  - exists (Done (None, Some err)), w, dirs, [EvOpen name false].
    split_and!; [done| |done]. by apply Forall_singleton.
  - exists (Done (Some (mkFile name), None)), w, dirs, [EvOpen name true].
    split_and!; [done| |done]. by apply Forall_singleton.
Qed.

Lemma traced_os_Remove (P : event → Prop) (name : string) :
  (∀ ok, P (EvRemove name ok)) → traced P (os_Remove name).
Proof.
  intros HP w dirs. unfold os_Remove. cbn [fs].
  destruct (sys_Remove name w) as [w'|err].
  - exists (Done None), w', dirs, [EvRemove name true].
    split_and!; [done|by apply Forall_singleton|].
    by intros [[=] _]%Forall_cons.
  - exists (Done (Some err)), w, dirs, [EvRemove name false].
    split_and!; [done|by apply Forall_singleton|done].
Qed.

Lemma traced_ReadAll_file (P : event → Prop) (file : os_File) :
  P (EvReadFile (file_Name file)) → traced P (ioutil_ReadAll file).
Proof.
  intros HP w dirs.
  exists (Done (sys_ReadAll (file_Name file) w)), w, dirs,
    [EvReadFile (file_Name file)].
  split_and!; [done| |done]. by apply Forall_singleton.
Qed.

Lemma traced_ReadAll_tar (P : event → Prop) (reader : tar_Reader) :
  P EvReadArchive → traced P (ioutil_ReadAll reader).
Proof.
  intros HP. apply traced_bind; [by apply traced_emit|].
  intros _. apply traced_ret.
Qed.

Lemma traced_ReadAll_zip (P : event → Prop) (reader : zip_ReadCloser) :
  P EvReadArchive → traced P (ioutil_ReadAll reader).
Proof.
  intros HP. apply traced_bind; [by apply traced_emit|].
  intros _. apply traced_ret.
Qed.

Lemma traced_zip_File_Open (P : event → Prop) (file : zip_File) :
  P (EvZipOpen (zf_Name file)) → traced P (zip_File_Open file).
Proof.
  intros HP. apply traced_bind; [by apply traced_emit|].
  intros _. apply traced_ret.
Qed.

Lemma traced_sha256_Sum256 (P : event → Prop) (data : bytes) :
  P (EvSum256 data) → traced P (sha256_Sum256 data).
Proof.
  intros HP. apply traced_bind; [by apply traced_emit|].
  intros _. apply traced_ret.
Qed.

Lemma traced_filepath_Walk {S : Type} (P : event → Prop) (root : string)
    (walkFn : visit → S → S * option error) (c : S) :
  (∀ n, P (EvWalk root n)) → traced P (filepath_Walk root walkFn c).
Proof.
  intros HP w dirs.
  exists (Done (walk_visits walkFn (sys_Walk root w) c)), w, dirs,
    [EvWalk root (length (sys_Walk root w))].
  split_and!; [done| |done]. by apply Forall_singleton.
Qed.

Lemma traced_app_FatalIfError (P : event → Prop) (err : option error)
    (msg : string) :
  (∀ e, P (EvFatal msg e)) → traced P (app_FatalIfError err msg).
Proof.
  intros HP. destruct err as [e|]; [|apply traced_ret].
  intros w dirs. exists (Exited 1), w, dirs, [EvFatal msg e].
  split_and!; [done| |done]. by apply Forall_singleton.
Qed.

Lemma traced_addDirectory (P : event → Prop) (dirName : string) :
  traced P (addDirectory dirName).
Proof.
  intros w dirs. exists (Done tt), w, (dirs ++ [dirName]), [].
  split_and!; [|done..]. intros t. unfold addDirectory. cbn.
  by rewrite app_nil_r.
Qed.

Lemma traced_sort_directories (P : event → Prop) :
  traced P sort_directories.
Proof.
  intros w dirs. exists (Done (sort_Sort dirs)), w, (sort_Sort dirs), [].
  split_and!; [|done..]. intros t. unfold sort_directories. cbn.
  by rewrite app_nil_r.
Qed.

(** What [traced] says of one run. *)
Lemma traced_run {A : Type} (P : event → Prop) (m : M A) (s : state) :
  traced P m →
  trace (m s).2 = trace s ++ since s (m s).2 ∧
  Forall P (since s (m s).2) ∧
  (Forall (λ e, is_remove e = false) (since s (m s).2) → fs (m s).2 = fs s).
Proof.
  intros Hm. destruct s as [w dirs t].
  destruct (Hm w dirs) as (r & w' & dirs' & d & Hrun & HP & Hfs).
  rewrite Hrun. cbn [snd]. rewrite (since_app _ _ d) by done. done.
Qed.

(** The calls made before a computation starts do not change what it does. *)
Lemma traced_extend {A : Type} (P : event → Prop) (m : M A) (s : state)
    (d0 : list event) :
  traced P m →
  m (extend s d0) =
    ((m s).1, mkState (fs (m s).2) (directories (m s).2)
                (trace s ++ d0 ++ since s (m s).2)).
Proof.
  intros Hm. destruct s as [w dirs t]. unfold extend. cbn [fs directories trace].
  destruct (Hm w dirs) as (r & w' & dirs' & d & Hrun & _).
  rewrite !Hrun. cbn [fst snd fs directories].
  rewrite (since_app _ _ d) by done. by rewrite app_assoc.
Qed.

Lemma traced_same_disk {A : Type} (P : event → Prop) (m : M A)
    (s s' : state) :
  traced P m → same_disk s s' →
  (m s).1 = (m s').1 ∧ same_disk (m s).2 (m s').2.
Proof.
  intros Hm [Hfs Hdirs]. destruct s as [w dirs t], s' as [w' dirs' t'].
  cbn in Hfs, Hdirs. subst w' dirs'.
  destruct (Hm w dirs) as (r & w1 & dirs1 & d & Hrun & _).
  by rewrite !Hrun.
Qed.

End Tracing.

(** One step of a proof of [traced P m], along the structure of [m]; the
    conditions on [P] are left to the caller. *)
Ltac traced_step :=
  match goal with
  | |- traced _ (bind _ _) => apply traced_bind; [|intros ?]
  | |- traced _ (ret _) => apply traced_ret
  | |- traced _ (when _ _) => apply traced_when
  | |- traced _ (fmt_Printf _ _) => apply traced_fmt_Printf
  | |- traced _ (os_Open _) => apply traced_os_Open
  | |- traced _ (os_Remove _) => apply traced_os_Remove
  | |- traced _ (@ioutil_ReadAll _ _ os_File_Reader _) =>
      apply traced_ReadAll_file
  | |- traced _ (@ioutil_ReadAll _ _ tar_Reader_Reader _) =>
      apply traced_ReadAll_tar
  | |- traced _ (@ioutil_ReadAll _ _ zip_ReadCloser_Reader _) =>
      apply traced_ReadAll_zip
  | |- traced _ (zip_File_Open _) => apply traced_zip_File_Open
  | |- traced _ (sha256_Sum256 _) => apply traced_sha256_Sum256
  | |- traced _ (filepath_Walk _ _ _) => apply traced_filepath_Walk
  | |- traced _ (app_FatalIfError _ _) => apply traced_app_FatalIfError
  | |- traced _ (addDirectory _) => apply traced_addDirectory
  | |- traced _ sort_directories => apply traced_sort_directories
  | |- traced _ (match ?x with _ => _ end) => destruct x eqn:?
  end.

Section TracedTool.
Context `{Env} (cfg : config) (P : event → Prop).

Lemma traced_ext {A : Type} (m m' : M A) :
  (∀ s, m s = m' s) → traced P m → traced P m'.
Proof.
  intros Heq Hm w dirs. destruct (Hm w dirs) as (r & w' & dirs' & d & ? & ?).
  exists r, w', dirs', d. split; [|done]. intros t. by rewrite <- Heq.
Qed.

Lemma traced_entry_verifyFunc (e : entry) (file : os_File) :
  (∀ ev, is_file_step ev = true → P ev) →
  traced P (entry_verifyFunc cfg e file).
Proof.
  intros HP. destruct e; cbn [entry_verifyFunc];
    unfold tarVerifyFunc, zipVerifyFunc; repeat traced_step; by apply HP.
Qed.

Lemma traced_removeFromTargetDir (filename : string)
    (verifyFunc : verifyCallback) :
  (∀ ok, P (EvOpen (Join (targetDir cfg) filename) ok)) →
  (∀ text, P (EvPrintf text)) →
  (dryRun cfg = false → ∀ ok, P (EvRemove (Join (targetDir cfg) filename) ok)) →
  (∀ file, traced P (verifyFunc file)) →
  traced P (removeFromTargetDir cfg filename (targetDir cfg) verifyFunc).
Proof.
  intros HPo HPp HPr Hv. unfold removeFromTargetDir.
  apply (traced_bind_post _
           (λ r, ∀ f, r.1 = Some f → file_Name f = Join (targetDir cfg) filename));
    [by apply traced_os_Open| |].
  { intros s a s' Hrun f Hf. revert Hrun. run_prog; intros; by simplify_eq/=. }
  intros [file ?] Hname. apply traced_bind; [by repeat traced_step|].
  intros _. apply traced_bind; [|by intros; repeat traced_step].
  unfold fileOutcome. destruct file as [f|]; [|by traced_step].
  apply traced_bind; [done|]. intros [verified [err|]]; [by traced_step|].
  destruct verified; [|by traced_step].
  destruct (dryRun cfg) eqn:Hdry; cbn [negb]; [by traced_step|].
  apply traced_bind; [|by intros; repeat traced_step].
  apply traced_os_Remove. rewrite (Hname f) by done. by apply HPr.
Qed.

Lemma traced_callback (e : entry) :
  admits_entry cfg P e → traced P (callback cfg e).
Proof.
  intros (HPf & HPp & HPr).
  assert (entry_IsDir e = false →
          traced P (removeFromTargetDir cfg (entry_Name e) (targetDir cfg)
                      (entry_verifyFunc cfg e))) as Hrm.
  { intros Hd. apply traced_removeFromTargetDir; [by intros; apply HPf|done|auto|].
    intros file. by apply traced_entry_verifyFunc. }
  destruct e; cbn [callback entry_IsDir entry_Name entry_verifyFunc] in *;
    unfold tarCallback, zipCallback.
  - destruct (hdr_IsDir header); [by repeat traced_step|auto].
  - destruct (zf_IsDir file); [by repeat traced_step|auto].
Qed.

Lemma traced_walk_entries {E : Type} (cb : E → M (option error))
    (es : list E) (fail : option error) :
  (∀ e, e ∈ es → traced P (cb e)) → traced P (walk_entries cb es fail).
Proof.
  induction es as [|e es IH]; intros Hcb; cbn [walk_entries].
  - apply traced_ret.
  - apply traced_bind; [apply Hcb; by left|].
    intros [err|]; [apply traced_ret|]. apply IH. intros e' ?. apply Hcb. by right.
Qed.

Lemma walk_entries_fmap {E E' : Type} (f : E → E') (cb : E' → M (option error))
    (es : list E) (fail : option error) (s : state) :
  walk_entries (λ e, cb (f e)) es fail s = walk_entries cb (f <$> es) fail s.
Proof.
  revert s. induction es as [|e es IH]; intros s; [done|].
  cbn [walk_entries fmap list_fmap]. unfold bind.
  destruct (cb (f e) s) as [[[err|]|] s1]; [done| |done]. apply IH.
Qed.

(** The archive pass walks the entries of the archive with the callbacks. *)
Lemma walkArchive_entries (s : state) :
  walkArchive cfg s =
  walk_entries (callback cfg) (archive_entries cfg) (archive_failure cfg) s.
Proof.
  unfold walkArchive, archive_entries, archive_failure,
    archive_WalkTar, archive_WalkTarBzip2, archive_WalkTarGz,
    archive_WalkTarXz, archive_WalkZip, walk_tar.
  destruct (archiveType cfg); cbn zeta;
    by rewrite <- walk_entries_fmap.
Qed.

Lemma traced_walkArchive :
  (∀ e, e ∈ archive_entries cfg → admits_entry cfg P e) → traced P (walkArchive cfg).
Proof.
  intros HP.
  apply (traced_ext
           (walk_entries (callback cfg) (archive_entries cfg)
              (archive_failure cfg))).
  { intros s. by rewrite walkArchive_entries. }
  apply traced_walk_entries. intros e He. by apply traced_callback, HP.
Qed.

Lemma traced_sweepDirectory (d : string) :
  admits_directory cfg P d → traced P (sweepDirectory cfg d).
Proof.
  intros (HPp & HPw & HPf & HPr). unfold sweepDirectory.
  apply traced_bind; [by repeat traced_step|]. intros _.
  apply traced_bind; [by traced_step|]. intros [count [err|]]; [by traced_step|].
  apply traced_bind; [|by intros [[[??]?]?]; repeat traced_step].
  unfold dirOutcome. destruct (count =? 1)%nat; [|by traced_step].
  destruct (dryRun cfg); cbn [negb]; [by traced_step|].
  repeat traced_step; auto.
Qed.

Lemma traced_range_dirs (dirs : list string) :
  (∀ d, d ∈ dirs → admits_directory cfg P d) → traced P (range_dirs cfg dirs).
Proof.
  induction dirs as [|d dirs IH]; intros HP; cbn [range_dirs].
  - apply traced_ret.
  - apply traced_bind; [apply traced_sweepDirectory, HP; by left|].
    intros [|]; [|apply traced_ret]. apply IH. intros d' ?. apply HP. by right.
Qed.

Lemma traced_removeEmptyDirectories :
  (∀ d, admits_directory cfg P d) → traced P (removeEmptyDirectories cfg).
Proof.
  intros HP. unfold removeEmptyDirectories.
  apply (traced_bind _ sort_directories); [apply traced_sort_directories|].
  intros dirs. by apply traced_range_dirs.
Qed.

Lemma traced_main :
  (∀ e, e ∈ archive_entries cfg → admits_entry cfg P e) →
  (removeDirs cfg = true → ∀ d, admits_directory cfg P d) →
  (∀ e, P (EvFatal errWalkError e)) →
  traced P (main cfg).
Proof.
  intros HPe HPd HPf. unfold main.
  apply traced_bind; [by apply traced_walkArchive|]. intros err.
  apply traced_bind; [destruct err; by traced_step|]. intros _.
  destruct (removeDirs cfg); [|apply traced_ret].
  by apply traced_removeEmptyDirectories, HPd.
Qed.

Lemma main_run_on (s : state) :
  main cfg s = run_on cfg (archive_entries cfg) (archive_failure cfg) s.
Proof.
  unfold main, run_on, finish. unfold bind at 1 3.
  by rewrite walkArchive_entries.
Qed.

Lemma traced_finish (err : option error) :
  (removeDirs cfg = true → ∀ d, admits_directory cfg P d) →
  (∀ e, P (EvFatal errWalkError e)) →
  traced P (finish cfg err).
Proof.
  intros HPd HPf. unfold finish.
  apply traced_bind; [destruct err; by traced_step|]. intros _.
  destruct (removeDirs cfg); [|apply traced_ret].
  by apply traced_removeEmptyDirectories, HPd.
Qed.

Lemma traced_run_on (es : list entry) (fail : option error) :
  (∀ e, e ∈ es → admits_entry cfg P e) →
  (removeDirs cfg = true → ∀ d, admits_directory cfg P d) →
  (∀ e, P (EvFatal errWalkError e)) →
  traced P (run_on cfg es fail).
Proof.
  intros HPe HPd HPf. unfold run_on.
  apply traced_bind; [|by intros; apply traced_finish].
  apply traced_walk_entries. intros e He. by apply traced_callback, HPe.
Qed.

End TracedTool.

Section AnyEvent.
Context `{Env} (cfg : config).

Lemma any_run_on (es : list entry) (fail : option error) :
  traced (λ _, True) (run_on cfg es fail).
Proof. by apply traced_run_on. Qed.

Lemma any_walk_entries (es : list entry) (fail : option error) :
  traced (λ _, True) (walk_entries (callback cfg) es fail).
Proof. apply traced_walk_entries. intros e _. by apply traced_callback. Qed.

Lemma any_removeEmptyDirectories :
  traced (λ _, True) (removeEmptyDirectories cfg).
Proof. by apply traced_removeEmptyDirectories. Qed.

End AnyEvent.

(** Brings a state built by running the program to the form [extend s d]. *)
Ltac norm_state :=
  unfold extend, opening, report, dir_header, dir_report;
  repeat match goal with
         | Hv : verbose _ = _ |- _ => rewrite Hv
         end;
  cbn [fs directories trace app];
  repeat (progress (rewrite <- ?app_assoc; cbn [app])); rewrite ?app_nil_r;
  try done;
  try match goal with
      | |- (_, ?s) = (_, mkState (fs ?s) (directories ?s) (trace ?s)) =>
          by destruct s
      end.

Section FileRuns.
Context `{Env} (cfg : config).

Lemma callback_file (e : entry) (s : state) :
  entry_IsDir e = false →
  callback cfg e s =
  removeFromTargetDir cfg (entry_Name e) (targetDir cfg)
    (entry_verifyFunc cfg e) s.
Proof.
  intros Hdir.
  destruct e; cbn in Hdir |- *; unfold tarCallback, zipCallback;
    by rewrite Hdir.
Qed.

Lemma callback_directory (e : entry) (s : state) :
  entry_IsDir e = true →
  callback cfg e s =
  (Done None, mkState (fs s) (directories s ++ [entry_Name e]) (trace s)).
Proof.
  intros Hdir.
  destruct e; cbn in Hdir |- *; unfold tarCallback, zipCallback;
    by rewrite Hdir.
Qed.

(** A path that cannot be opened. *)
Lemma removeFromTargetDir_not_opened (filename : string)
    (verifyFunc : verifyCallback) (err : error) (s : state) :
  sys_Open (Join (targetDir cfg) filename) (fs s) = Some err →
  removeFromTargetDir cfg filename (targetDir cfg) verifyFunc s =
  (Done None,
   extend s (opening cfg filename false ++ report cfg false reasonFileNotFound)).
Proof.
  intros Ho. unfold removeFromTargetDir, fileOutcome.
  run_prog; by norm_state.
Qed.

(** A path that can be opened: everything depends on what the verification
    callback returns. *)
Lemma removeFromTargetDir_opened (filename : string)
    (verifyFunc : verifyCallback) (s : state) :
  let path := Join (targetDir cfg) filename in
  sys_Open path (fs s) = None →
  removeFromTargetDir cfg filename (targetDir cfg) verifyFunc s =
  match verifyFunc (mkFile path) (extend s (opening cfg filename true)) with
  | (Exited code, s1) => (Exited code, s1)
  | (Done (_, Some err), s1) => (Done (Some err), s1)
  | (Done (false, None), s1) =>
      (Done None, extend s1 (report cfg false reasonVerificationFailure))
  | (Done (true, None), s1) =>
      if dryRun cfg then (Done None, extend s1 (report cfg false ""))
      else
        match sys_Remove path (fs s1) with
        | inl w =>
            (Done None,
             mkState w (directories s1)
               (trace s1 ++ EvRemove path true :: report cfg true ""))
        | inr err => (Done (Some err), extend s1 [EvRemove path false])
        end
  end.
Proof.
  intros path Ho. subst path. unfold removeFromTargetDir, fileOutcome.
  unfold bind at 1, os_Open. rewrite Ho.
  unfold bind at 1. unfold emit at 1, bind at 1, ret at 1.
  rewrite (bool_decide_true (is_Some (Some _))) by done.
  match goal with
  | |- (let (_, _) := ?m ?s0 in _) = _ =>
      assert (m s0 = (Done tt, extend s (opening cfg filename true))) as ->
  end.
  { unfold opening. destruct (verbose cfg); run_prog; by norm_state. }
  unfold bind at 1 2.
  destruct (verifyFunc _ _) as [[[[|] [e|]]|] s1]; try done.
  - destruct (dryRun cfg); cbn [negb file_Name]; run_prog; by norm_state.
  - run_prog; by norm_state.
Qed.

(** What the verification callback of an entry does. *)
Lemma entry_verifyFunc_run (e : entry) (file : os_File) (s : state) :
  entry_verifyFunc cfg e file s =
  if verify cfg then
    match sys_ReadAll (file_Name file) (fs s) with
    | inr err =>
        (Done (false, Some err), extend s [EvReadFile (file_Name file)])
    | inl target =>
        match entry_content e with
        | inr err =>
            (Done (false, Some err),
             extend s (EvReadFile (file_Name file) :: EvSum256 target ::
                       entry_fetch e))
        | inl content =>
            (Done (bool_decide (Sum256 target = Sum256 content), None),
             extend s (EvReadFile (file_Name file) :: EvSum256 target ::
                       entry_fetch e ++ [EvSum256 content]))
        end
    end
  else (Done (true, None), s).
Proof.
  destruct e; cbn [entry_verifyFunc entry_content entry_fetch];
    unfold tarVerifyFunc, zipVerifyFunc;
    destruct (verify cfg); try done; run_prog; by norm_state.
Qed.

(** A callback that returns no error lets the walker go on with the next
    entry; one that returns an error ends the walk with that error. *)
Lemma walk_entries_continue {E : Type} (cb : E → M (option error)) (e : E)
    (es : list E) (fail : option error) (s s1 : state) :
  cb e s = (Done None, s1) →
  walk_entries cb (e :: es) fail s = walk_entries cb es fail s1.
Proof. intros Hcb. cbn [walk_entries]. unfold bind. by rewrite Hcb. Qed.

Lemma walk_entries_abort {E : Type} (cb : E → M (option error)) (e : E)
    (es : list E) (fail : option error) (err : error) (s s1 : state) :
  cb e s = (Done (Some err), s1) →
  walk_entries cb (e :: es) fail s = (Done (Some err), s1).
Proof. intros Hcb. cbn [walk_entries]. unfold bind. by rewrite Hcb. Qed.

Lemma walk_entries_app {E : Type} (cb : E → M (option error))
    (es1 es2 : list E) (fail : option error) (s s1 : state) :
  walk_entries cb es1 None s = (Done None, s1) →
  walk_entries cb (es1 ++ es2) fail s = walk_entries cb es2 fail s1.
Proof.
  revert s. induction es1 as [|e es1 IH]; intros s.
  - cbn. unfold ret. by intros [= ->].
  - cbn [walk_entries app]. unfold bind.
    destruct (cb e s) as [[[err|]|] s']; [done| |done]. apply IH.
Qed.

(** C9. In both versions of the tool, whatever the error of [os.Open] on the
    resolved path is (a missing file, a permission failure, anything else),
    [removeFromTargetDir] does the same: it never calls the verification
    callback nor [os.Remove], reports [Exists: No] and [Removed: No] with the
    reason of a file not found, and returns no error, so that the walker goes
    on with the next entry.  The error itself appears nowhere. *)
Theorem any_open_error_is_file_not_found (s : state) (filename : string)
    (err : error) :
  sys_Open (Join (targetDir cfg) filename) (fs s) = Some err →
  let after :=
    extend s (opening cfg filename false ++
              report cfg false reasonFileNotFound) in
  (∀ verifyFunc,
     fileOutcome cfg None verifyFunc s =
       (Done (inr (false, reasonFileNotFound)), s)) ∧
  (∀ rm verifyFunc,
     rm = removeFromTargetDir cfg ∨ rm = Legacy.removeFromTargetDir cfg →
     rm filename (targetDir cfg) verifyFunc s = (Done None, after)) ∧
  (∀ e es fail,
     entry_IsDir e = false → entry_Name e = filename →
     walk_entries (callback cfg) (e :: es) fail s =
     walk_entries (callback cfg) es fail after) ∧
  fs after = fs s ∧
  (∀ ev, ev ∈ since s after → is_remove ev = false).
Proof.
  intros Ho after. split_and!.
  - done.
  - intros rm verifyFunc [-> | ->]; [|rewrite legacy_removeFromTargetDir];
      by eapply removeFromTargetDir_not_opened.
  - intros e es fail Hdir <-. apply walk_entries_continue.
    rewrite callback_file by done. by eapply removeFromTargetDir_not_opened.
  - done.
  - subst after. rewrite since_extend. unfold opening, report.
    intros ev Hin. destruct (verbose cfg); cbn [app] in Hin; by each_member Hin.
Qed.

(** C10. In both versions of the tool, when the verification callback
    returns an error, [removeFromTargetDir] returns that error in the very
    state the callback left: no call is made after the callback, so no
    [os.Remove].  With the callbacks of the tool the target file is then as
    it was, no [os.Remove] was called for the entry, and the walker ends with
    the error without looking at the entries that follow. *)
Theorem verification_error_returns_before_delete (s : state)
    (filename : string) :
  let path := Join (targetDir cfg) filename in
  sys_Open path (fs s) = None →
  (∀ rm verifyFunc verified err s1,
     rm = removeFromTargetDir cfg ∨ rm = Legacy.removeFromTargetDir cfg →
     verifyFunc (mkFile path) (extend s (opening cfg filename true)) =
       (Done (verified, Some err), s1) →
     rm filename (targetDir cfg) verifyFunc s = (Done (Some err), s1)) ∧
  (∀ e es fail err,
     entry_IsDir e = false → entry_Name e = filename →
     returned_error
       (entry_verifyFunc cfg e (mkFile path)
          (extend s (opening cfg filename true))).1 = Some err →
     let r := callback cfg e s in
     r.1 = Done (Some err) ∧
     fs r.2 = fs s ∧
     (∀ ev, ev ∈ since s r.2 → is_remove ev = false) ∧
     walk_entries (callback cfg) (e :: es) fail s = r).
Proof.
  intros path Ho. split.
  - intros rm verifyFunc verified err s1 Hrm Hv.
    assert (rm filename (targetDir cfg) verifyFunc s =
            removeFromTargetDir cfg filename (targetDir cfg) verifyFunc s) as ->.
    { destruct Hrm as [-> | ->]; [done|apply legacy_removeFromTargetDir]. }
    rewrite removeFromTargetDir_opened by done. fold path. rewrite Hv.
    by destruct verified.
  - intros e es fail err Hdir <- Hv r.
    assert (∃ d, r = (Done (Some err), extend s d) ∧
                 ∀ ev, ev ∈ d → is_remove ev = false) as (d & Hr & Hd).
    { subst r. rewrite callback_file by done.
      rewrite removeFromTargetDir_opened by done. fold path.
      rewrite entry_verifyFunc_run in Hv |- *. cbn [file_Name fs extend] in *.
      destruct (verify cfg); [|done].
      destruct (sys_ReadAll path (fs s)) as [target|err'];
        [destruct (entry_content e) as [content|err']|];
        cbn [fst snd returned_error] in Hv; simplify_eq.
      all: rewrite extend_extend; eexists; split; [done|].
      all: unfold opening; destruct (verbose cfg), e; cbn [entry_fetch app];
        intros ev Hin; try destruct (zf_Open _); by each_member Hin. }
    split_and!.
    + by rewrite Hr.
    + by rewrite Hr.
    + rewrite Hr. cbn [snd]. by rewrite since_extend.
    + rewrite Hr. by apply walk_entries_abort.
Qed.

End FileRuns.

Section ArchivePass.
Context `{Env} (cfg : config).

(** A pass over entries of which every file cannot be opened returns no error
    and leaves the file system alone. *)
Lemma walk_entries_all_missing (es : list entry) (fail : option error)
    (s : state) :
  (∀ e, e ∈ es → entry_IsDir e = false →
        sys_Open (Join (targetDir cfg) (entry_Name e)) (fs s) ≠ None) →
  let r := walk_entries (callback cfg) es fail s in
  r.1 = Done fail ∧ fs r.2 = fs s.
Proof.
  revert s. induction es as [|e es IH]; intros s Hes; [done|].
  assert (∃ s', callback cfg e s = (Done None, s') ∧ fs s' = fs s)
    as (s' & Hcb & Hfs).
  { destruct (entry_IsDir e) eqn:Hdir.
    - eexists. by split; [apply callback_directory|].
    - destruct (sys_Open (Join (targetDir cfg) (entry_Name e)) (fs s))
        as [err|] eqn:Ho; [|by destruct (Hes e); [left|..]].
      eexists. split; [|shelve]. rewrite callback_file by done.
      by eapply removeFromTargetDir_not_opened. Unshelve. done. }
  cbn zeta. rewrite (walk_entries_continue _ _ _ _ _ _ Hcb).
  destruct (IH s') as [Hr Hfs'].
  { intros e' ??. rewrite Hfs. apply Hes; [by right|done]. }
  split; [done|]. by rewrite Hfs'.
Qed.

(** C7. When the pass reaches a file entry whose resolved path does not
    exist, the callback reports [Exists: No] and [Removed: No] with the
    reason of a file not found, calls neither the verification callback nor
    [os.Remove], and returns no error; the walker goes on with the next
    entry.  The entry changes nothing of the rest of the run: [main] ends the
    same way, with the same file system and the same directories, as on the
    archive without the entry.  A run on an archive that is read without
    error and all of whose files are missing, without [--remove-dirs],
    returns from [main] (exit status 0) with the file system untouched. *)
Theorem missing_file_is_skipped_without_error (s s1 : state) (e : entry)
    (es1 es2 : list entry) (err : error) :
  archive_entries cfg = es1 ++ e :: es2 →
  walk_entries (callback cfg) es1 None s = (Done None, s1) →
  entry_IsDir e = false →
  sys_Open (Join (targetDir cfg) (entry_Name e)) (fs s1) = Some err →
  os_IsNotExist err = true →
  let skipped :=
    extend s1 (opening cfg (entry_Name e) false ++
               report cfg false reasonFileNotFound) in
  callback cfg e s1 = (Done None, skipped) ∧
  fs skipped = fs s1 ∧
  (∀ ev, ev ∈ since s1 skipped → is_remove ev = false) ∧
  (∀ fail,
     walk_entries (callback cfg) (e :: es2) fail s1 =
     walk_entries (callback cfg) es2 fail skipped) ∧
  (let r := main cfg s in
   let r' := run_on cfg (es1 ++ es2) (archive_failure cfg) s in
   r.1 = r'.1 ∧ exit_code r.1 = exit_code r'.1 ∧ same_disk r.2 r'.2) ∧
  (archive_failure cfg = None → removeDirs cfg = false →
   (∀ e', e' ∈ archive_entries cfg → entry_IsDir e' = false →
          sys_Open (Join (targetDir cfg) (entry_Name e')) (fs s) ≠ None) →
   (main cfg s).1 = Done tt ∧ exit_code (main cfg s).1 = 0%Z ∧
   fs (main cfg s).2 = fs s).
Proof.
  intros Hes Hpass Hdir Ho _ skipped.
  assert (callback cfg e s1 = (Done None, skipped)) as Hcb.
  { rewrite callback_file by done. by eapply removeFromTargetDir_not_opened. }
  split_and!.
  - done.
  - done.
  - subst skipped. rewrite since_extend. unfold opening, report.
    intros ev Hin. destruct (verbose cfg); cbn [app] in Hin; by each_member Hin.
  - intros fail. by apply walk_entries_continue.
  - cbn zeta. rewrite main_run_on, Hes.
    set (fail := archive_failure cfg).
    set (rest := bind (walk_entries (callback cfg) es2 fail) (finish cfg)).
    assert (run_on cfg (es1 ++ e :: es2) fail s = rest skipped) as ->.
    { unfold run_on, rest, bind.
      by rewrite (walk_entries_app _ _ _ _ _ s1),
        (walk_entries_continue _ _ _ _ _ skipped). }
    assert (run_on cfg (es1 ++ es2) fail s = rest s1) as ->.
    { unfold run_on, rest, bind. by rewrite (walk_entries_app _ _ _ _ _ s1). }
    destruct (traced_same_disk (λ _, True) rest skipped s1) as [Hr Hd];
      [apply (any_run_on cfg es2 fail)|done|].
    by rewrite Hr.
  - intros Hfail Hrd Hall.
    destruct (walk_entries_all_missing (archive_entries cfg) None s Hall)
      as [Hr Hfs].
    rewrite main_run_on, Hfail. unfold run_on, bind, finish.
    destruct (walk_entries _ (archive_entries cfg) _ s) as [r s'].
    cbn [fst snd] in Hr, Hfs. subst r. rewrite Hrd. by cbn.
Qed.

(** C6. With [--verify], when the pass reaches a file entry that can be
    opened in the target directory but whose content, or the content of the
    archive entry, cannot be read, [main] ends the process with status 1: the
    trace ends with the failed read and the fatal error, no entry after this
    one is looked at, and the file is not deleted.  When both contents are
    read and their digests differ, the callback returns no error, reports
    [Removed: No] with the reason of a failed verification, deletes nothing,
    and the walker goes on with the next entry. *)
Theorem read_error_is_fatal_mismatch_is_skipped (s s1 : state) (e : entry)
    (es1 es2 : list entry) :
  archive_entries cfg = es1 ++ e :: es2 →
  walk_entries (callback cfg) es1 None s = (Done None, s1) →
  entry_IsDir e = false →
  verify cfg = true →
  let path := Join (targetDir cfg) (entry_Name e) in
  sys_Open path (fs s1) = None →
  (∀ err, sys_ReadAll path (fs s1) = inr err →
     main cfg s =
       (Exited 1,
        extend s1 (opening cfg (entry_Name e) true ++
                   [EvReadFile path; EvFatal errWalkError err]))) ∧
  (∀ target err,
     sys_ReadAll path (fs s1) = inl target → entry_content e = inr err →
     main cfg s =
       (Exited 1,
        extend s1 (opening cfg (entry_Name e) true ++
                   EvReadFile path :: EvSum256 target :: entry_fetch e ++
                   [EvFatal errWalkError err]))) ∧
  (∀ target content,
     sys_ReadAll path (fs s1) = inl target → entry_content e = inl content →
     Sum256 target ≠ Sum256 content →
     let skipped :=
       extend s1 (opening cfg (entry_Name e) true ++
                  EvReadFile path :: EvSum256 target :: entry_fetch e ++
                  EvSum256 content ::
                  report cfg false reasonVerificationFailure) in
     callback cfg e s1 = (Done None, skipped) ∧
     ∀ fail,
       walk_entries (callback cfg) (e :: es2) fail s1 =
       walk_entries (callback cfg) es2 fail skipped).
Proof.
  intros Hes Hpass Hdir Hv path Ho.
  assert (walk_entries (callback cfg) (archive_entries cfg)
            (archive_failure cfg) s =
          walk_entries (callback cfg) (e :: es2) (archive_failure cfg) s1)
    as Hwalk.
  { rewrite Hes. by apply walk_entries_app. }
  pose proof (callback_file cfg e s1 Hdir) as Hcb.
  rewrite removeFromTargetDir_opened in Hcb by done. fold path in Hcb.
  rewrite entry_verifyFunc_run in Hcb. rewrite Hv in Hcb.
  cbn [file_Name fs extend] in Hcb.
  split_and!.
  - intros err Hr. rewrite Hr in Hcb.
    rewrite main_run_on. unfold run_on, bind.
    rewrite Hwalk, (walk_entries_abort _ _ _ _ _ _ _ Hcb).
    unfold finish, bind, app_FatalIfError. by norm_state.
  - intros target err Hr Hc. rewrite Hr, Hc in Hcb.
    rewrite main_run_on. unfold run_on, bind.
    rewrite Hwalk, (walk_entries_abort _ _ _ _ _ _ _ Hcb).
    unfold finish, bind, app_FatalIfError. by norm_state.
  - intros target content Hr Hc Hne skipped. rewrite Hr, Hc in Hcb.
    rewrite bool_decide_false in Hcb by done.
    assert (callback cfg e s1 = (Done None, skipped)) as Hcb'.
    { rewrite Hcb. subst skipped. by norm_state. }
    split; [done|]. intros fail. by apply walk_entries_continue.
Qed.

End ArchivePass.

(** ** The order of [sort.Sort] on a [reverseStringSlice] *)

Section Order.

Lemma compare_not_lt_trans (x y z : string) :
  String.compare x y ≠ Lt → String.compare y z ≠ Lt → String.compare x z ≠ Lt.
Proof.
  revert y z. induction x as [|a x IH]; intros [|b y] [|c z]; cbn; try done.
  unfold Ascii.compare.
  destruct (N.compare_spec (Ascii.N_of_ascii a) (Ascii.N_of_ascii b)),
    (N.compare_spec (Ascii.N_of_ascii b) (Ascii.N_of_ascii c)),
    (N.compare_spec (Ascii.N_of_ascii a) (Ascii.N_of_ascii c));
    try done; try lia; eauto.
Qed.

Lemma in_order_compare (x y : string) :
  in_order x y ↔ String.compare x y ≠ Lt.
Proof.
  unfold in_order, Less, String.ltb. cbn.
  destruct (String.compare x y); naive_solver.
Qed.

Lemma in_order_leb (x y : string) : in_order x y ↔ String.leb y x = true.
Proof.
  rewrite in_order_compare. unfold String.leb.
  rewrite (String.compare_antisym y x).
  destruct (String.compare x y); naive_solver.
Qed.

Lemma in_order_total : Total in_order.
Proof.
  intros x y. rewrite !in_order_compare, (String.compare_antisym y x).
  destruct (String.compare x y); naive_solver.
Qed.

Lemma in_order_trans : Transitive in_order.
Proof.
  intros x y z. rewrite !in_order_compare. apply compare_not_lt_trans.
Qed.

Lemma StronglySorted_lookup {A : Type} (R : relation A) (l : list A)
    (i j : nat) (x y : A) :
  StronglySorted R l → i < j → l !! i = Some x → l !! j = Some y → R x y.
Proof.
  intros Hs. revert i j. induction Hs as [|a l Hs IH Ha]; intros i j Hij Hi Hj.
  - done.
  - destruct j as [|j]; [lia|]. destruct i as [|i]; cbn in Hi, Hj.
    + simplify_eq. rewrite Forall_forall in Ha. apply Ha.
      by eapply list_elem_of_lookup_2.
    + apply (IH i j); [lia|done..].
Qed.

Lemma sort_Sort_sorted (p : reverseStringSlice) :
  StronglySorted in_order (sort_Sort p).
Proof.
  apply StronglySorted_merge_sort; [apply in_order_trans|apply in_order_total].
Qed.

Lemma sort_Sort_permutation (p : reverseStringSlice) : sort_Sort p ≡ₚ p.
Proof. apply merge_sort_Permutation. Qed.

End Order.

(** ** The directory sweep *)

Section TracePredicates.
Context `{Env}.

Lemma removal_guarded_nil : removal_guarded [].
Proof. intros [|??] ??? ?; done. Qed.

Lemma removal_guarded_head (d : list event) (q : string) (ok : bool)
    (rest : list event) :
  removal_guarded d → d ≠ EvRemove q ok :: rest.
Proof.
  intros Hd ->. destruct (Hd [] q ok rest eq_refl) as [[|??] ?]; done.
Qed.

Lemma removal_guarded_app (d1 d2 : list event) :
  removal_guarded d1 → removal_guarded d2 → removal_guarded (d1 ++ d2).
Proof.
  intros H1 H2 before p ok after Heq.
  apply app_eq_inv in Heq as [(k & -> & Hk)|(k & -> & Hk)].
  - destruct k as [|ev k]; cbn in Hk.
    + destruct (H2 [] p ok after) as [[|??] ?]; done.
    + simplify_eq. apply (H1 _ _ _ _ eq_refl).
  - destruct (H2 _ _ _ _ Hk) as [k' ->]. exists (d1 ++ k').
    by rewrite app_assoc.
Qed.

Lemma nonempty_reported_nil (cfg : config) : nonempty_reported cfg [].
Proof. intros [|??] ??? ?; done. Qed.

Lemma nonempty_reported_app (cfg : config) (d1 d2 : list event) :
  nonempty_reported cfg d1 → nonempty_reported cfg d2 → removal_guarded d2 →
  nonempty_reported cfg (d1 ++ d2).
Proof.
  intros H1 H2 Hg before p n after Heq Hn.
  apply app_eq_inv in Heq as [(k & -> & Hk)|(k & -> & Hk)].
  - destruct k as [|ev k]; cbn in Hk.
    + by apply (H2 [] p n after).
    + simplify_eq. destruct (H1 _ _ _ _ eq_refl Hn) as (rest & -> & Hrest).
      exists (rest ++ d2). split; [by rewrite app_assoc|].
      intros q ok rest' Heq. destruct rest as [|ev' rest]; cbn in Heq.
      * by eapply removal_guarded_head.
      * simplify_eq. by eapply Hrest.
  - by apply (H2 _ _ _ _ Hk).
Qed.

End TracePredicates.

(** Finds where an event sits in an explicit list of calls. *)
Ltac locate_event :=
  repeat match goal with
         | Heq : _ = ?before ++ _ :: _ |- _ =>
             destruct before as [|? before]; cbn [app] in Heq; simplify_eq
         end.

Section Sweep.
Context `{Env} (cfg : config).

Lemma walk_visits_walkFunc (vs : list visit) (count : nat) :
  walk_visits walkFunc vs count = (count + length vs, None).
Proof.
  revert count. induction vs as [|v vs IH]; intros count; cbn.
  - f_equal. lia.
  - rewrite IH. f_equal. lia.
Qed.

(** What one iteration of the sweep does. *)
Lemma sweepDirectory_run (d : string) (s : state) :
  let path := Join (targetDir cfg) d in
  let n := length (sys_Walk path (fs s)) in
  sweepDirectory cfg d s =
  if (n =? 1)%nat then
    if dryRun cfg then
      (Done true,
       extend s (dir_header cfg path ++
                 EvWalk path n :: dir_report cfg true true false ""))
    else
      match sys_Remove path (fs s) with
      | inl w =>
          (Done true,
           mkState w (directories s)
             (trace s ++ dir_header cfg path ++
              EvWalk path n :: EvRemove path true ::
              dir_report cfg true true true ""))
      | inr err =>
          if os_IsNotExist err then
            (Done true,
             extend s (dir_header cfg path ++
                       EvWalk path n :: EvRemove path false ::
                       dir_report cfg false true false reasonDirNotFound))
          else
            (Exited 1,
             extend s (dir_header cfg path ++
                       [EvWalk path n; EvRemove path false;
                        EvFatal errDirRemovalError err]))
      end
  else
    (Done true,
     extend s (dir_header cfg path ++
               EvWalk path n :: dir_report cfg true false false "")).
Proof.
  intros path n. subst path n. unfold sweepDirectory, dirOutcome.
  repeat (progress unfold_prog). destruct (verbose cfg) eqn:Hverb;
    cbn [fst snd fs trace directories];
    rewrite walk_visits_walkFunc; cbn [Nat.add].
  all: run_prog; by norm_state.
Qed.

(** The calls of one iteration. *)
Lemma sweepDirectory_trace (d : string) (s : state) :
  let path := Join (targetDir cfg) d in
  let r := sweepDirectory cfg d s in
  trace r.2 = trace s ++ since s r.2 ∧
  directories r.2 = directories s ∧
  (r.1 = Done true ∨ r.1 = Exited 1) ∧
  walk_roots (since s r.2) = [path] ∧
  removal_guarded (since s r.2) ∧
  nonempty_reported cfg (since s r.2).
Proof.
  intros path r. subst r. rewrite sweepDirectory_run. fold path.
  set (n := length (sys_Walk path (fs s))). clearbody n.
  destruct (n =? 1)%nat eqn:Hn;
    [apply Nat.eqb_eq in Hn; destruct (dryRun cfg);
       [|destruct (sys_Remove path (fs s)) as [w|err];
           [|destruct (os_IsNotExist err)]]
    |apply Nat.eqb_neq in Hn].
  all: cbn [fst snd]; unfold extend; cbn [trace directories];
    unfold since; cbn [trace]; rewrite !drop_app_length.
  all: split_and!; [done|done|by auto| | |].
  all: unfold nonempty_reported, dir_header, dir_report;
    destruct (verbose cfg); cbn [app]; try done.
  all: try match goal with
           | |- removal_guarded _ =>
               intros before p ok after Heq; locate_event; rewrite ?Hn;
               first [by exists []|by eexists [_]|by eexists [_; _]]
           | |- _ =>
               intros before p n' after Heq Hn'; locate_event;
               try congruence
           end.
  all: exists []; split; [done|]; by intros ???.
Qed.

Lemma walk_roots_app (d1 d2 : list event) :
  walk_roots (d1 ++ d2) = walk_roots d1 ++ walk_roots d2.
Proof. apply omap_app. Qed.

(** The calls of the loop over the sorted directories. *)
Lemma range_dirs_trace (dirs : list string) (s : state) :
  let r := range_dirs cfg dirs s in
  trace r.2 = trace s ++ since s r.2 ∧
  walk_roots (since s r.2) `prefix_of` (Join (targetDir cfg) <$> dirs) ∧
  (r.1 = Done tt → walk_roots (since s r.2) = Join (targetDir cfg) <$> dirs) ∧
  removal_guarded (since s r.2) ∧
  nonempty_reported cfg (since s r.2).
Proof.
  revert s. induction dirs as [|d dirs IH]; intros s; cbn zeta.
  - cbn. rewrite since_refl, app_nil_r. split_and!; try done.
    + apply removal_guarded_nil.
    + apply nonempty_reported_nil.
  - destruct (sweepDirectory_trace d s)
      as (Ht1 & _ & Hr1 & Hw1 & Hg1 & Hn1).
    cbn [range_dirs]. unfold bind.
    destruct (sweepDirectory cfg d s) as [r1 s1]. cbn [fst snd] in *.
    destruct Hr1 as [-> | ->].
    + destruct (IH s1) as (Ht2 & Hp2 & Hw2 & Hg2 & Hn2).
      destruct (range_dirs cfg dirs s1) as [r2 s2]. cbn [fst snd] in *.
      assert (since s s2 = since s s1 ++ since s1 s2) as ->.
      { apply since_app. by rewrite Ht2, Ht1, app_assoc. }
      rewrite walk_roots_app, Hw1. split_and!.
      * by rewrite Ht2, Ht1, app_assoc.
      * cbn. by apply prefix_cons.
      * intros Hd. cbn. by rewrite Hw2.
      * by apply removal_guarded_app.
      * by apply nonempty_reported_app.
    + cbn [fst snd]. rewrite Hw1. split_and!; try done.
      cbn. apply prefix_cons, prefix_nil.
Qed.

(** C4. In one iteration of the sweep, on the recorded directory [d] in any
    state, [os.Remove] is only ever called on the resolved path of [d], and
    only if the walk of that path visited exactly one entry (and
    [--dry-run] is off); if the walk visited another number of entries, the
    iteration walks, reports that the directory exists, is not empty and was
    not removed, and changes nothing.  Over the whole sweep: every call of
    [os.Remove] comes right after a walk of the same path that visited
    exactly one entry, every walk that visited another number of entries is
    followed by that report and not by a call of [os.Remove], and only
    recorded directories are walked. *)
Theorem sweep_removes_only_directories_walked_as_one_entry (s : state) :
  (∀ d,
     let path := Join (targetDir cfg) d in
     let n := length (sys_Walk path (fs s)) in
     let r := sweepDirectory cfg d s in
     (∀ p ok, EvRemove p ok ∈ since s r.2 →
        p = path ∧ n = 1 ∧ dryRun cfg = false) ∧
     (n ≠ 1 →
        r = (Done true,
             extend s (dir_header cfg path ++
                       EvWalk path n :: dir_report cfg true false false "")))) ∧
  (let r := removeEmptyDirectories cfg s in
   removal_guarded (since s r.2) ∧
   nonempty_reported cfg (since s r.2) ∧
   (∀ p, p ∈ walk_roots (since s r.2) →
      ∃ d, d ∈ directories s ∧ p = Join (targetDir cfg) d)).
Proof.
  split.
  - intros d path n r. subst r. rewrite sweepDirectory_run. fold path n.
    clearbody n. split.
    + destruct (n =? 1)%nat eqn:Hn;
        [apply Nat.eqb_eq in Hn; destruct (dryRun cfg);
           [|destruct (sys_Remove path (fs s)) as [w|err];
               [|destruct (os_IsNotExist err)]]|].
      all: cbn [snd]; unfold extend, since; cbn [trace];
        rewrite drop_app_length.
      all: unfold dir_header, dir_report; destruct (verbose cfg); cbn [app].
      all: intros p ok Hin; by each_member Hin.
    + intros Hn. apply Nat.eqb_neq in Hn. by rewrite Hn.
  - cbn zeta. unfold removeEmptyDirectories, bind, sort_directories.
    set (s0 := mkState (fs s) (sort_Sort (directories s)) (trace s)).
    destruct (range_dirs_trace (sort_Sort (directories s)) s0)
      as (_ & Hp & _ & Hg & Hn).
    assert (∀ s', since s s' = since s0 s') as Hs by done.
    rewrite Hs. split_and!; [done..|].
    intros p Hin.
    eapply elem_of_prefix, list_elem_of_fmap in Hin as (d & -> & Hd);
      [|done].
    exists d. split; [|done]. by rewrite <- (sort_Sort_permutation _).
Qed.

(** C8. The sweep walks the recorded directories in the order [sort.Sort]
    gives the [reverseStringSlice]: a permutation of the recorded paths in
    which no path is [Less] than one before it, that is, the raw path
    strings in descending byte-wise lexicographic order.  The roots of the
    walks are these paths, joined to the target directory, in this order (a
    prefix of them if a removal error ends the process).  This is not the
    order of the depths: in the order of ["a/b/c"] and ["z"], the path of
    depth 1 comes before the path of depth 3. *)
Theorem sweep_in_descending_string_order (s : state) :
  let dirs := sort_Sort (directories s) in
  let r := removeEmptyDirectories cfg s in
  dirs ≡ₚ directories s ∧
  (∀ i j, i < j < length dirs → Less dirs j i = false) ∧
  (∀ i j x y, i < j → dirs !! i = Some x → dirs !! j = Some y →
     String.leb y x = true) ∧
  walk_roots (since s r.2) `prefix_of` (Join (targetDir cfg) <$> dirs) ∧
  (r.1 = Done tt → walk_roots (since s r.2) = Join (targetDir cfg) <$> dirs) ∧
  directories r.2 = dirs ∧
  (sort_Sort ["a/b/c"; "z"] = ["z"; "a/b/c"] ∧ depth "z" < depth "a/b/c").
Proof.
  intros dirs r.
  assert (∀ i j x y, i < j → dirs !! i = Some x → dirs !! j = Some y →
            in_order x y) as Hsorted.
  { intros i j x y. apply StronglySorted_lookup, sort_Sort_sorted. }
  split_and!.
  - apply sort_Sort_permutation.
  - intros i j [Hij Hj].
    destruct (lookup_lt_is_Some_2 dirs i) as [x Hx]; [lia|].
    destruct (lookup_lt_is_Some_2 dirs j) as [y Hy]; [lia|].
    pose proof (Hsorted i j x y Hij Hx Hy) as Ho.
    unfold in_order, Less in *. cbn in Ho.
    by rewrite (list_lookup_total_correct _ _ _ Hx),
      (list_lookup_total_correct _ _ _ Hy).
  - intros i j x y Hij Hx Hy. apply in_order_leb. by eapply Hsorted.
  - subst r. unfold removeEmptyDirectories, bind, sort_directories.
    by destruct (range_dirs_trace dirs (mkState (fs s) dirs (trace s)))
      as (_ & Hp & _).
  - subst r. unfold removeEmptyDirectories, bind, sort_directories.
    by destruct (range_dirs_trace dirs (mkState (fs s) dirs (trace s)))
      as (_ & _ & Hd & _).
  - subst r. unfold removeEmptyDirectories, bind, sort_directories.
    fold dirs. set (s0 := mkState (fs s) dirs (trace s)).
    change dirs with (directories s0) at 2. clearbody s0. clear.
    revert s0. induction dirs as [|d dirs IH]; intros s0; [done|].
    cbn [range_dirs]. unfold bind.
    destruct (sweepDirectory_trace d s0) as (_ & Hd & _).
    destruct (sweepDirectory cfg d s0) as [[[|]|] s1]; cbn [fst snd] in *;
      try done.
    by rewrite IH.
  - by vm_compute.
  - cbn. lia.
Qed.

End Sweep.

(** ** The whole run *)

Section WholeRun.
Context `{Env} (cfg : config).

(** What [main] does after the archive pass. *)
Lemma main_after_pass (s : state) :
  let pass := walkArchive cfg s in
  main cfg s =
  match pass.1 with
  | Done None =>
      if removeDirs cfg then removeEmptyDirectories cfg pass.2
      else (Done tt, pass.2)
  | Done (Some err) => (Exited 1, extend pass.2 [EvFatal errWalkError err])
  | Exited code => (Exited code, pass.2)
  end.
Proof.
  cbn zeta. unfold main. unfold bind at 1.
  destruct (walkArchive cfg s) as [[[err|]|code] s1]; cbn [fst snd]; try done.
  unfold bind, ret. by destruct (removeDirs cfg).
Qed.

(** C3. With [--dry-run], [main] leaves the file system as it found it and
    never calls [os.Remove], neither in the archive pass nor in the sweep.
    The decisions are still taken and reported: a file entry is opened,
    verified and reported as in any run, with [Removed: No]; a recorded
    directory is walked and reported with its emptiness, with
    [Removed: No]. *)
Theorem dry_run_never_removes (s : state) :
  dryRun cfg = true →
  (let r := main cfg s in
   fs r.2 = fs s ∧ ∀ ev, ev ∈ since s r.2 → is_remove ev = false) ∧
  (let r := walkArchive cfg s in
   fs r.2 = fs s ∧ ∀ ev, ev ∈ since s r.2 → is_remove ev = false) ∧
  (let r := removeEmptyDirectories cfg s in
   fs r.2 = fs s ∧ ∀ ev, ev ∈ since s r.2 → is_remove ev = false) ∧
  (∀ e, entry_IsDir e = false →
     let path := Join (targetDir cfg) (entry_Name e) in
     callback cfg e s =
     match sys_Open path (fs s) with
     | Some _ =>
         (Done None,
          extend s (opening cfg (entry_Name e) false ++
                    report cfg false reasonFileNotFound))
     | None =>
         match entry_verifyFunc cfg e (mkFile path)
                 (extend s (opening cfg (entry_Name e) true)) with
         | (Exited code, s1) => (Exited code, s1)
         | (Done (_, Some err), s1) => (Done (Some err), s1)
         | (Done (verified, None), s1) =>
             (Done None,
              extend s1
                (report cfg false
                   (if verified then "" else reasonVerificationFailure)))
         end
     end) ∧
  (∀ d,
     let path := Join (targetDir cfg) d in
     let n := length (sys_Walk path (fs s)) in
     sweepDirectory cfg d s =
     (Done true,
      extend s (dir_header cfg path ++
                EvWalk path n :: dir_report cfg true (n =? 1)%nat false ""))).
Proof.
  intros Hdry.
  assert (∀ A (m : M A), traced (λ ev, is_remove ev = false) m →
            let r := m s in
            fs r.2 = fs s ∧ ∀ ev, ev ∈ since s r.2 → is_remove ev = false)
    as Hquiet.
  { intros A m Hm. destruct (traced_run _ m s Hm) as (_ & HP & Hfs).
    split; [by apply Hfs|]. by apply Forall_forall. }
  assert (∀ e, admits_entry cfg (λ ev, is_remove ev = false) e) as He.
  { intros e. split_and!; [by intros []|done|]. by rewrite Hdry. }
  assert (∀ d, admits_directory cfg (λ ev, is_remove ev = false) d) as Hd.
  { intros d. split_and!; try done. by rewrite Hdry. }
  split_and!.
  - by apply Hquiet, traced_main.
  - by apply Hquiet, traced_walkArchive.
  - by apply Hquiet, traced_removeEmptyDirectories.
  - intros e Hdir path. subst path. rewrite callback_file by done.
    destruct (sys_Open _ (fs s)) as [err|] eqn:Ho.
    + by eapply removeFromTargetDir_not_opened.
    + rewrite removeFromTargetDir_opened by done. rewrite Hdry.
      by destruct (entry_verifyFunc _ _ _ _) as [[[[|] [?|]]|] ?].
  - intros d path n. subst path n. rewrite sweepDirectory_run. rewrite Hdry.
    by destruct (_ =? 1)%nat.
Qed.

(** C5. [main] runs the archive pass to its end first; only then, if the pass
    returned no error and [--remove-dirs] is set, it runs the sweep, once, on
    the state the pass left; otherwise there is no sweep.  The pass walks no
    directory and calls [os.Remove] only on the paths of file entries; on a
    directory entry the callback only appends its name to [directories].
    The sweep makes none of the calls of the decision on a file.  So in the
    trace of [main] the calls of the pass all come before the calls of the
    sweep. *)
Theorem file_pass_completes_before_sweep (s : state) :
  let pass := walkArchive cfg s in
  let r := main cfg s in
  r = match pass.1 with
      | Done None =>
          if removeDirs cfg then removeEmptyDirectories cfg pass.2
          else (Done tt, pass.2)
      | Done (Some err) => (Exited 1, extend pass.2 [EvFatal errWalkError err])
      | Exited code => (Exited code, pass.2)
      end ∧
  since s r.2 = since s pass.2 ++ since pass.2 r.2 ∧
  (∀ ev, ev ∈ since s pass.2 → pass_event cfg ev) ∧
  (∀ ev, ev ∈ since pass.2 r.2 → is_file_step ev = false) ∧
  (removeDirs cfg = false →
   ∀ ev, ev ∈ since pass.2 r.2 → is_walk ev = false ∧ is_remove ev = false) ∧
  (∀ e s1, entry_IsDir e = true →
     callback cfg e s1 =
     (Done None,
      mkState (fs s1) (directories s1 ++ [entry_Name e]) (trace s1))).
Proof.
  intros pass r.
  assert (traced (pass_event cfg) (walkArchive cfg)) as Hpass.
  { apply traced_walkArchive. intros e He. split_and!.
    - intros ev Hev. split; [by destruct ev|]. intros p ok ->. done.
    - intros text. split; [done|]. by intros p ok.
    - intros Hdir _ ok. split; [done|]. intros p ok' [= <- <-]. by exists e. }
  assert (traced (λ ev, is_file_step ev = false) (removeEmptyDirectories cfg))
    as Hsweep.
  { by apply traced_removeEmptyDirectories. }
  destruct (traced_run _ _ s Hpass) as (Ht1 & HP1 & _). fold pass in Ht1, HP1.
  destruct (traced_run _ _ pass.2 Hsweep) as (Ht2 & HP2 & _).
  pose proof (main_after_pass s) as Hmain. fold pass r in Hmain.
  assert (∃ d, trace r.2 = trace pass.2 ++ d ∧
               Forall (λ ev, is_file_step ev = false) d ∧
               (removeDirs cfg = false →
                Forall (λ ev, is_walk ev = false ∧ is_remove ev = false) d))
    as (d & Hd & Hfile & Hnone).
  { rewrite Hmain. destruct pass.1 as [[err|]|code].
    - exists [EvFatal errWalkError err]. split_and!; [done|..];
        by repeat constructor.
    - destruct (removeDirs cfg).
      + exists (since pass.2 (removeEmptyDirectories cfg pass.2).2).
        by split_and!.
      + exists []. rewrite app_nil_r. by split_and!.
    - exists []. rewrite app_nil_r. by split_and!. }
  rewrite (since_app pass.2 r.2 d) by done.
  split_and!.
  - done.
  - apply since_app. by rewrite Hd, Ht1, app_assoc.
  - by apply Forall_forall.
  - by apply Forall_forall.
  - intros Hrd. by apply Forall_forall, Hnone.
  - intros e s1. apply callback_directory.
Qed.

End WholeRun.

(** * The properties on the small installation *)

Section Witnesses.
Import MemFS Example.
#[local] Existing Instance platform.

(** Finds a call in the computed trace of a run. *)
Ltac find_call :=
  vm_compute; repeat first [apply list_elem_of_here|apply list_elem_of_further].

(** On the installed file with [--verify]: the file is deleted, and so it
    was there, verified, and the run was no dry run; on the modified file
    nothing is deleted. *)
Lemma removed_only_if_present_verified_and_not_dry_run_witness :
  (dryRun (flags false true true) = false ∧
   sys_Open "t/dir/file.txt" installed = None ∧
   verdict
     (entry_verifyFunc (flags false true true) file_entry
        (mkFile "t/dir/file.txt") (begin installed)).1 = true) ∧
  (fs (callback (flags false true true) file_entry (begin modified)).2 =
     modified ∧
   fs (callback (flags true true true) file_entry (begin modified)).2 =
     modified).
Proof.
  split.
  - destruct (@removed_only_if_present_verified_and_not_dry_run platform
                (flags false true true) (begin installed)) as [_ Hcb].
    destruct (Hcb (callback (flags false true true)) file_entry
                (or_introl eq_refl) eq_refl) as (Hrm & _ & _).
    destruct (Hrm "t/dir/file.txt" true) as (_ & Ho & Hv & Hd);
      [find_call|].
    by split_and!.
  - split.
    + destruct (@removed_only_if_present_verified_and_not_dry_run platform
                  (flags false true true) (begin modified)) as [_ Hcb].
      destruct (Hcb (callback (flags false true true)) file_entry
                  (or_introl eq_refl) eq_refl) as (_ & _ & Hdiff).
      destruct (Hdiff goodbye hello) as [Hfs _]; [done|done|done| |done].
      by vm_compute.
    + destruct (@removed_only_if_present_verified_and_not_dry_run platform
                  (flags true true true) (begin modified)) as [_ Hcb].
      destruct (Hcb (callback (flags true true true)) file_entry
                  (or_introl eq_refl) eq_refl) as (_ & _ & Hdiff).
      destruct (Hdiff goodbye hello) as [Hfs _]; [done|done|done| |done].
      by vm_compute.
Defined.

(** On the installed file the callback answers [true], without an error. *)
Lemma verify_callback_is_digest_equality_witness :
  returned_error
    (entry_verifyFunc (flags false true true) file_entry
       (mkFile "t/dir/file.txt") (begin installed)).1 = None.
Proof.
  destruct (@verify_callback_is_digest_equality platform
              (flags false true true) (begin installed)
              (mkFile "t/dir/file.txt")) as [Htar _].
  destruct (Htar (mkTarReader (inl hello))) as (Hiff & Herr & _).
  apply Herr, Hiff. by exists hello, hello.
Defined.

(** The locked file fails to open with a permission error, not with a
    missing file; it is reported as not found all the same. *)
Lemma any_open_error_is_file_not_found_witness :
  os_IsNotExist EACCES = false ∧
  sys_Open "t/dir/file.txt" locked = Some EACCES ∧
  removeFromTargetDir (flags false true true) "dir/file.txt" "t"
    (entry_verifyFunc (flags false true true) file_entry) (begin locked) =
  (Done None,
   extend (begin locked)
     (opening (flags false true true) "dir/file.txt" false ++
      report (flags false true true) false reasonFileNotFound)).
Proof.
  split_and!; [done|done|].
  destruct (@any_open_error_is_file_not_found platform
              (flags false true true) (begin locked) "dir/file.txt" EACCES)
    as (_ & Hrm & _); [done|].
  apply Hrm. by left.
Defined.

(** A directory stands where the file should be: reading it fails, and the
    callback returns the error with the file system as it was. *)
Lemma verification_error_returns_before_delete_witness :
  (callback (flags false true true) file_entry (begin replaced)).1 =
    Done (Some EISDIR) ∧
  fs (callback (flags false true true) file_entry (begin replaced)).2 =
    replaced.
Proof.
  destruct (@verification_error_returns_before_delete platform
              (flags false true true) (begin replaced) "dir/file.txt")
    as [_ Hcb]; [done|].
  destruct (Hcb file_entry [] None EISDIR) as (Hr & Hfs & _); [done..|].
  by split.
Defined.

(** The file is missing: the run returns from [main]. *)
Lemma missing_file_is_skipped_without_error_witness :
  (main (flags false false true) (begin missing)).1 = Done tt ∧
  exit_code (main (flags false false true) (begin missing)).1 = 0%Z.
Proof.
  destruct (@missing_file_is_skipped_without_error platform
              (flags false false true) (begin missing) (recorded missing)
              file_entry [dir_entry] [] ENOENT)
    as (_ & _ & _ & _ & _ & Hexit); [done..|].
  destruct Hexit as (Hr & Hc & _); [done|done| |by split].
  intros e' He'. change (e' ∈ [dir_entry; file_entry]) in He'.
  each_member He'; by vm_compute.
Defined.

(** A target that cannot be read aborts the run, and so does an archive
    entry that cannot be read; the modified file is skipped. *)
Lemma read_error_is_fatal_mismatch_is_skipped_witness :
  (main (flags false true true) (begin replaced)).1 = Exited 1 ∧
  (@main damaged_platform (flags false true true)
     (@start damaged_platform installed)).1 = Exited 1 ∧
  (callback (flags false true true) file_entry (recorded modified)).1 =
    Done None.
Proof.
  split_and!.
  - destruct (@read_error_is_fatal_mismatch_is_skipped platform
                (flags false true true) (begin replaced) (recorded replaced)
                file_entry [dir_entry] [])
      as (Hfatal & _ & _); [done..|].
    by rewrite (Hfatal EISDIR eq_refl).
  - destruct (@read_error_is_fatal_mismatch_is_skipped damaged_platform
                (flags false true true) (@start damaged_platform installed)
                (@mkState damaged_platform installed ["dir/"] [])
                damaged_entry [dir_entry] [])
      as (_ & Hfatal & _); [done..|].
    by rewrite (Hfatal hello (mkError "unexpected EOF" false) eq_refl eq_refl).
  - destruct (@read_error_is_fatal_mismatch_is_skipped platform
                (flags false true true) (begin modified) (recorded modified)
                file_entry [dir_entry] [])
      as (_ & _ & Hskip); [done..|].
    destruct (Hskip goodbye hello) as [Hcb _]; [done|done|by vm_compute|].
    by rewrite Hcb.
Defined.

(** The directory that still holds the modified file is walked as two
    entries and left alone. *)
Lemma sweep_removes_only_directories_walked_as_one_entry_witness :
  sweepDirectory (flags false true true) "dir/" (recorded modified) =
  (Done true,
   extend (recorded modified)
     (dir_header (flags false true true) "t/dir" ++
      EvWalk "t/dir" 2 ::
      dir_report (flags false true true) true false false "")).
Proof.
  destruct (@sweep_removes_only_directories_walked_as_one_entry platform
              (flags false true true) (recorded modified)) as [Hdir _].
  destruct (Hdir "dir/") as [_ Hfull]. by apply Hfull.
Defined.

(** Two recorded directories are walked in descending order of their names. *)
Lemma sweep_in_descending_string_order_witness :
  walk_roots
    (since (two_recorded missing)
       (removeEmptyDirectories (flags true true false)
          (two_recorded missing)).2) =
  ["t/etc"; "t/dir"].
Proof.
  destruct (@sweep_in_descending_string_order platform (flags true true false)
              (two_recorded missing))
    as (_ & _ & _ & _ & Hall & _).
  by rewrite Hall.
Defined.

(** A dry run on the installed file leaves it in place. *)
Lemma dry_run_never_removes_witness :
  fs (main (flags true true true) (begin installed)).2 = installed.
Proof.
  by destruct (@dry_run_never_removes platform (flags true true true)
                 (begin installed) eq_refl) as ((Hfs & _) & _).
Defined.

(** Without [--remove-dirs] nothing is walked or removed after the pass. *)
Lemma file_pass_completes_before_sweep_witness :
  Forall (λ ev, is_walk ev = false ∧ is_remove ev = false)
    (since (walkArchive (flags false false true) (begin installed)).2
       (main (flags false false true) (begin installed)).2).
Proof.
  destruct (@file_pass_completes_before_sweep platform
              (flags false false true) (begin installed))
    as (_ & _ & _ & _ & Hnone & _).
  apply Forall_forall, Hnone. done.
Defined.

End Witnesses.

(** * Further properties *)

(** ** Deleting a file *)

Section Deleting.
Context `{Env} (cfg : config).

Lemma removals_app (d1 d2 : list event) :
  removals (d1 ++ d2) = removals d1 ++ removals d2.
Proof. apply omap_app. Qed.

Lemma removals_opening (filename : string) (ok : bool) :
  removals (opening cfg filename ok) = [].
Proof. unfold opening. by destruct (verbose cfg). Qed.

Lemma removals_report (removed : bool) (reason : string) :
  removals (report cfg removed reason) = [].
Proof. unfold report. by destruct (verbose cfg). Qed.

Lemma removals_entry_fetch (e : entry) : removals (entry_fetch e) = [].
Proof. destruct e; cbn; [done|]. by destruct (zf_Open file). Qed.

(** A verification that passes, as a run of the callback. *)
Lemma verifies_run (e : entry) (s : state) :
  verifies cfg e (fs s) →
  ∃ d, entry_verifyFunc cfg e
         (mkFile (Join (targetDir cfg) (entry_Name e))) s =
       (Done (true, None), extend s d) ∧
       removals d = [].
Proof.
  intros Hv. rewrite entry_verifyFunc_run. cbn [file_Name].
  destruct (verify cfg) eqn:Hverify.
  - destruct Hv as [?|(target & content & -> & -> & Hsum)]; [congruence|].
    rewrite bool_decide_true by done. eexists. split; [done|].
    cbn. by rewrite removals_app, removals_entry_fetch.
  - exists []. by rewrite extend_nil.
Qed.

(** The run of the callback on a file that is there and passes the
    verification, in a real run. *)
Lemma callback_deletes (e : entry) (s : state) :
  entry_IsDir e = false → dryRun cfg = false →
  let path := Join (targetDir cfg) (entry_Name e) in
  sys_Open path (fs s) = None →
  verifies cfg e (fs s) →
  ∃ d, removals d = [] ∧
    callback cfg e s =
    match sys_Remove path (fs s) with
    | inl w =>
        (Done None,
         mkState w (directories s)
           (trace s ++ d ++ EvRemove path true :: report cfg true ""))
    | inr err => (Done (Some err), extend s (d ++ [EvRemove path false]))
    end.
Proof.
  intros Hdir Hdry path Ho Hv.
  destruct (verifies_run e (extend s (opening cfg (entry_Name e) true)) Hv)
    as (d & Hrun & Hd).
  exists (opening cfg (entry_Name e) true ++ d). split.
  { by rewrite removals_app, removals_opening, Hd. }
  rewrite callback_file by done. subst path.
  rewrite removeFromTargetDir_opened by done.
  rewrite Hrun, Hdry. cbn [fs extend directories trace].
  destruct (sys_Remove _ (fs s)); rewrite ?extend_extend, <- ?app_assoc; done.
Qed.

(** X2. In both versions of the tool, in a real run, a file that can be
    opened, passes the verification (or is not verified) and that
    [os.Remove] accepts is removed: the callback returns no error, the file
    system is the one [os.Remove] left, [os.Remove] was called once, on the
    resolved path, and the report ends with [Removed: Yes]. *)
Theorem present_verified_file_is_removed (s : state) (e : entry)
    (cb : entry → M (option error)) (w : world) :
  cb = callback cfg ∨ cb = legacy_callback cfg →
  entry_IsDir e = false → dryRun cfg = false →
  let path := Join (targetDir cfg) (entry_Name e) in
  sys_Open path (fs s) = None →
  verifies cfg e (fs s) →
  sys_Remove path (fs s) = inl w →
  let r := cb e s in
  r.1 = Done None ∧
  fs r.2 = w ∧
  directories r.2 = directories s ∧
  removals (since s r.2) = [path] ∧
  report cfg true "" `suffix_of` since s r.2.
Proof.
  intros Hcb Hdir Hdry path Ho Hv Hrm r.
  assert (r = callback cfg e s) as ->.
  { subst r. destruct Hcb as [-> | ->]; [done|by apply legacy_callback_file]. }
  destruct (callback_deletes e s Hdir Hdry Ho Hv) as (d & Hd & ->).
  fold path. rewrite Hrm. cbn [fst snd fs directories].
  rewrite (since_app _ _ (d ++ EvRemove path true :: report cfg true ""))
    by done.
  split_and!; try done.
  - rewrite removals_app, Hd. cbn. by rewrite removals_report.
  - exists (d ++ [EvRemove path true]). by rewrite <- app_assoc.
Qed.

(** X1. In a real run, when [os.Remove] fails on a file that is there and
    passes the verification, the callback returns that error right after the
    call, without a report line; the file system is as it was; both versions
    do the same; and [main] ends the process with status 1 without looking
    at the entries that follow. *)
Theorem removal_error_is_fatal (s s1 : state) (e : entry)
    (es1 es2 : list entry) (err : error) :
  archive_entries cfg = es1 ++ e :: es2 →
  walk_entries (callback cfg) es1 None s = (Done None, s1) →
  entry_IsDir e = false → dryRun cfg = false →
  let path := Join (targetDir cfg) (entry_Name e) in
  sys_Open path (fs s1) = None →
  verifies cfg e (fs s1) →
  sys_Remove path (fs s1) = inr err →
  let r := callback cfg e s1 in
  r.1 = Done (Some err) ∧
  fs r.2 = fs s1 ∧
  (∃ d, since s1 r.2 = d ++ [EvRemove path false] ∧ removals d = []) ∧
  legacy_callback cfg e s1 = r ∧
  main cfg s = (Exited 1, extend r.2 [EvFatal errWalkError err]).
Proof.
  intros Hes Hpass Hdir Hdry path Ho Hv Hrm r.
  destruct (callback_deletes e s1 Hdir Hdry Ho Hv) as (d & Hd & Hcb).
  fold path in Hcb. rewrite Hrm in Hcb. subst r. rewrite Hcb.
  cbn [fst snd]. split_and!; try done.
  - exists d. by rewrite since_extend.
  - by rewrite legacy_callback_file.
  - rewrite main_run_on, Hes. unfold run_on, bind.
    rewrite (walk_entries_app _ _ _ _ _ _ Hpass),
      (walk_entries_abort _ _ _ _ _ _ _ Hcb).
    by unfold finish, bind, app_FatalIfError.
Qed.

(** What a successful [os.Remove] in the trace of the callback tells. *)
Lemma callback_removed (e : entry) (s : state) :
  entry_IsDir e = false →
  let path := Join (targetDir cfg) (entry_Name e) in
  let r := callback cfg e s in
  EvRemove path true ∈ since s r.2 →
  sys_Remove path (fs s) = inl (fs r.2).
Proof.
  intros Hdir path r. subst r path. rewrite callback_file by done.
  unfold removeFromTargetDir, fileOutcome.
  destruct e; cbn [entry_verifyFunc entry_Name];
    unfold tarVerifyFunc, zipVerifyFunc.
  all: run_prog; read_since; intros Hin; by each_member Hin.
Qed.

(** X10. On a platform where a removed path cannot be opened any more: once
    the callback has removed the file of an entry, the callback on the same
    entry, in the state reached and under any flags with the same target
    directory, finds no file: it reports the reason of a file not found,
    calls [os.Remove] no more and returns no error. *)
Theorem second_removal_finds_nothing (s : state) (e : entry) (cfg' : config) :
  removed_is_gone →
  entry_IsDir e = false →
  targetDir cfg' = targetDir cfg →
  let path := Join (targetDir cfg) (entry_Name e) in
  let r := callback cfg e s in
  EvRemove path true ∈ since s r.2 →
  callback cfg' e r.2 =
  (Done None,
   extend r.2 (opening cfg' (entry_Name e) false ++
               report cfg' false reasonFileNotFound)).
Proof.
  intros Hgone Hdir Htarget path r Hin.
  pose proof (callback_removed e s Hdir Hin) as Hrm. fold path r in Hrm.
  destruct (sys_Open (Join (targetDir cfg') (entry_Name e)) (fs r.2))
    as [err|] eqn:Ho.
  - rewrite callback_file by done. by eapply removeFromTargetDir_not_opened.
  - rewrite Htarget in Ho. by destruct (Hgone _ _ _ Hrm).
Qed.

End Deleting.

(** ** The [sort.Interface] of [reverseStringSlice] *)

Section SortInterface.

Lemma compare_lt_trans (x y z : string) :
  String.compare x y = Lt → String.compare y z = Lt → String.compare x z = Lt.
Proof.
  revert y z. induction x as [|a x IH]; intros [|b y] [|c z]; cbn; try done.
  unfold Ascii.compare.
  destruct (N.compare_spec (Ascii.N_of_ascii a) (Ascii.N_of_ascii b)),
    (N.compare_spec (Ascii.N_of_ascii b) (Ascii.N_of_ascii c)),
    (N.compare_spec (Ascii.N_of_ascii a) (Ascii.N_of_ascii c));
    try done; try lia; eauto.
Qed.

Lemma ltb_compare (x y : string) :
  String.ltb x y = true ↔ String.compare x y = Lt.
Proof. unfold String.ltb. by destruct (String.compare x y). Qed.

(** X11. [Less] of [reverseStringSlice] is the strict order that
    [sort.Sort] needs: no position is less than itself, [Less] is asymmetric
    and transitive, and two positions neither of which is less than the
    other hold the same string, so that a sorted slice is determined by its
    elements.  Position [i] is less than position [j] exactly when the string
    at [j] is smaller, byte by byte, than the string at [i]. *)
Theorem Less_is_a_strict_order (p : reverseStringSlice) :
  (∀ i, Less p i i = false) ∧
  (∀ i j, Less p i j = true → Less p j i = false) ∧
  (∀ i j k, Less p i j = true → Less p j k = true → Less p i k = true) ∧
  (∀ i j x y, p !! i = Some x → p !! j = Some y →
     Less p i j = false → Less p j i = false → x = y) ∧
  (∀ i j x y, p !! i = Some x → p !! j = Some y →
     Less p i j = String.ltb y x).
Proof.
  unfold Less. split_and!.
  - intros i. apply not_true_iff_false. rewrite ltb_compare.
    intros Hc. pose proof (String.compare_antisym (p !!! i) (p !!! i)) as Ha.
    by rewrite Hc in Ha.
  - intros i j. rewrite ltb_compare. intros Hc.
    apply not_true_iff_false. rewrite ltb_compare.
    by rewrite String.compare_antisym, Hc.
  - intros i j k. rewrite !ltb_compare. intros Hij Hjk.
    by apply (compare_lt_trans _ (p !!! j)).
  - intros i j x y Hx Hy.
    rewrite (list_lookup_total_correct _ _ _ Hx),
      (list_lookup_total_correct _ _ _ Hy).
    intros Hyx%not_true_iff_false Hxy%not_true_iff_false.
    rewrite ltb_compare in Hyx, Hxy.
    destruct (String.compare x y) eqn:Hc; [|done|].
    + by apply String.compare_eq_iff.
    + by rewrite String.compare_antisym, Hc in Hyx.
  - intros i j x y Hx Hy.
    by rewrite (list_lookup_total_correct _ _ _ Hx),
      (list_lookup_total_correct _ _ _ Hy).
Qed.

(** The exchange of two positions. *)
Lemma exchange_inj (i j : nat) :
  Inj (=) (=) (λ k, if decide (k = i) then j else if decide (k = j) then i else k).
Proof. intros k1 k2. repeat case_decide; congruence. Qed.

(** X12. [Swap] panics exactly when one of the two positions is out of
    range.  Otherwise the slice has the same length and the same elements,
    the strings at the two positions are exchanged, every other position is
    untouched, swapping again gives the slice back, and [Less] of the two
    positions is turned around. *)
Theorem Swap_exchanges_two_positions (p : reverseStringSlice) (i j : nat) :
  (is_Some (Swap p i j) ↔ i < Len p ∧ j < Len p) ∧
  (∀ q, Swap p i j = Some q →
     Len q = Len p ∧
     q ≡ₚ p ∧
     q !! i = p !! j ∧
     q !! j = p !! i ∧
     (∀ k, k ≠ i → k ≠ j → q !! k = p !! k) ∧
     Swap q i j = Some p ∧
     Less q i j = Less p j i).
Proof.
  unfold Swap, Len, reverseStringSlice in *. split.
  - destruct (p !! i) as [x|] eqn:Hx; [destruct (p !! j) as [y|] eqn:Hy|].
    + split; [|by eauto]. intros _.
      split; by eapply lookup_lt_Some.
    + apply lookup_ge_None in Hy. split; [by intros [??]|lia].
    + apply lookup_ge_None in Hx. split; [by intros [??]|lia].
  - intros q Hq.
    destruct (p !! i) as [x|] eqn:Hx; [|done].
    destruct (p !! j) as [y|] eqn:Hy; [|done].
    simplify_eq.
    pose proof (lookup_lt_Some _ _ _ Hx) as Hi.
    pose proof (lookup_lt_Some _ _ _ Hy) as Hj.
    assert (∀ k, <[i:=y]> (<[j:=x]> p) !! k =
                 p !! (if decide (k = i) then j
                       else if decide (k = j) then i else k)) as Hlook.
    { intros k.
      destruct (decide (k = i)) as [->|Hki];
        [|destruct (decide (k = j)) as [->|Hkj]].
      - rewrite list_lookup_insert_eq by (by rewrite length_insert). done.
      - rewrite list_lookup_insert_ne by done.
        rewrite list_lookup_insert_eq by done. done.
      - rewrite !list_lookup_insert_ne by done. done. }
    assert (<[i:=y]> (<[j:=x]> p) !! i = Some y) as Hqi.
    { rewrite Hlook. by case_decide. }
    assert (<[i:=y]> (<[j:=x]> p) !! j = Some x) as Hqj.
    { rewrite Hlook. repeat case_decide; simplify_eq; done. }
    split_and!.
    + by rewrite !length_insert.
    + apply Permutation_inj. split; [by rewrite !length_insert|].
      eexists. split; [apply (exchange_inj i j)|]. apply Hlook.
    + by rewrite Hqi.
    + by rewrite Hqj.
    + intros k ??. rewrite Hlook. by repeat case_decide.
    + rewrite Hqi, Hqj. f_equal. apply list_eq. intros k.
      destruct (decide (k = i)) as [->|]; [|destruct (decide (k = j)) as [->|]].
      * rewrite list_lookup_insert_eq by (by rewrite !length_insert). done.
      * rewrite list_lookup_insert_ne by done.
        rewrite list_lookup_insert_eq by (by rewrite !length_insert). done.
      * rewrite !list_lookup_insert_ne by done. done.
    + unfold Less.
      by rewrite (list_lookup_total_correct _ _ _ Hqi),
        (list_lookup_total_correct _ _ _ Hqj),
        (list_lookup_total_correct _ _ _ Hx),
        (list_lookup_total_correct _ _ _ Hy).
Qed.

End SortInterface.

(** ** How the sweep ends *)

Section SweepEnds.
Context `{Env} (cfg : config).

Lemma since_trans (s s1 s2 : state) :
  trace s1 = trace s ++ since s s1 → trace s2 = trace s1 ++ since s1 s2 →
  since s s2 = since s s1 ++ since s1 s2.
Proof. intros H1 H2. apply since_app. by rewrite H2, H1 at 1; rewrite app_assoc. Qed.

(** X6. In a real run, when the walk of a recorded directory visits one
    entry and [os.Remove] fails on it: if the error says that the path does
    not exist, the directory is reported as not existing, with the reason of
    a directory not found, and the sweep goes on with the next directory;
    for any other error the process ends with status 1 right after the
    failed call, and the directories that follow are not looked at. *)
Theorem vanished_directory_is_skipped_other_errors_abort (d : string)
    (dirs : list string) (s : state) (err : error) :
  dryRun cfg = false →
  let path := Join (targetDir cfg) d in
  length (sys_Walk path (fs s)) = 1 →
  sys_Remove path (fs s) = inr err →
  range_dirs cfg (d :: dirs) s =
  if os_IsNotExist err then
    range_dirs cfg dirs
      (extend s (dir_header cfg path ++
                 EvWalk path 1 :: EvRemove path false ::
                 dir_report cfg false true false reasonDirNotFound))
  else
    (Exited 1,
     extend s (dir_header cfg path ++
               [EvWalk path 1; EvRemove path false;
                EvFatal errDirRemovalError err])).
Proof.
  intros Hdry path Hn Hrm. cbn [range_dirs]. unfold bind.
  rewrite sweepDirectory_run. fold path. rewrite Hn, Hdry, Hrm. cbn.
  by destruct (os_IsNotExist err).
Qed.

(** How one iteration ends. *)
Lemma sweepDirectory_end (d : string) (s : state) :
  let r := sweepDirectory cfg d s in
  r.1 = Done true ∨
  (r.1 = Exited 1 ∧ dryRun cfg = false ∧
   ∃ d' err, since s r.2 = d' ++ [EvFatal errDirRemovalError err] ∧
             os_IsNotExist err = false).
Proof.
  cbn zeta. rewrite sweepDirectory_run.
  set (path := Join (targetDir cfg) d).
  set (n := length (sys_Walk path (fs s))). clearbody n.
  destruct (n =? 1)%nat; [|by left].
  destruct (dryRun cfg) eqn:Hdry; [by left|].
  destruct (sys_Remove path (fs s)) as [w|err]; [by left|].
  destruct (os_IsNotExist err) eqn:Herr; [by left|].
  right. split_and!; [done..|].
  exists (dir_header cfg path ++ [EvWalk path n; EvRemove path false]), err.
  split; [|done]. cbn [snd]. rewrite since_extend. by rewrite <- app_assoc.
Qed.

Lemma range_dirs_end (dirs : list string) (s : state) :
  let r := range_dirs cfg dirs s in
  (r.1 = Done tt ∧
   walk_roots (since s r.2) = Join (targetDir cfg) <$> dirs) ∨
  (r.1 = Exited 1 ∧ dryRun cfg = false ∧
   ∃ d' err, since s r.2 = d' ++ [EvFatal errDirRemovalError err] ∧
             os_IsNotExist err = false).
Proof.
  revert s. induction dirs as [|d dirs IH]; intros s; cbn zeta.
  - left. cbn. by rewrite since_refl.
  - destruct (sweepDirectory_trace cfg d s) as (Ht1 & _ & _ & Hw1 & _).
    pose proof (sweepDirectory_end d s) as Hend.
    cbn [range_dirs]. unfold bind.
    destruct (sweepDirectory cfg d s) as [r1 s1]. cbn [fst snd] in *.
    destruct Hend as [->|(-> & Hdry & Hfatal)]; [|by right].
    destruct (range_dirs_trace cfg dirs s1) as (Ht2 & _).
    destruct (IH s1) as [[Hr Hw]|(Hr & Hdry & d' & err & Hd' & Herr)].
    + left. split; [done|].
      rewrite (since_trans s s1) by done.
      by rewrite walk_roots_app, Hw1, Hw.
    + right. split_and!; [done..|].
      exists (since s s1 ++ d'), err. split; [|done].
      rewrite (since_trans s s1) by done. by rewrite Hd', app_assoc.
Qed.

(** X7. The sweep ends in one of two ways.  Either it returns, and then
    every recorded directory was walked, once, in the sorted order: the walk
    callback counts every visit, also those that carry an error, and never
    stops the walk, so that no iteration leaves the loop.  Or the process
    ends with status 1, in a real run only, on an error of [os.Remove] that
    does not say that the path does not exist; the fatal error is the last
    call.  With [--dry-run] the sweep always returns. *)
Theorem sweep_returns_or_dies_on_a_removal_error (s : state) :
  let r := removeEmptyDirectories cfg s in
  (∀ vs count, walk_visits walkFunc vs count = (count + length vs, None)) ∧
  (∀ d s1, (sweepDirectory cfg d s1).1 ≠ Done false) ∧
  ((r.1 = Done tt ∧
    walk_roots (since s r.2) =
      Join (targetDir cfg) <$> sort_Sort (directories s)) ∨
   (r.1 = Exited 1 ∧ dryRun cfg = false ∧
    ∃ d' err, since s r.2 = d' ++ [EvFatal errDirRemovalError err] ∧
              os_IsNotExist err = false)) ∧
  (dryRun cfg = true → r.1 = Done tt).
Proof.
  cbn zeta.
  assert (∀ s', since s s' =
                since (mkState (fs s) (sort_Sort (directories s)) (trace s)) s')
    as Hs by done.
  pose proof (range_dirs_end (sort_Sort (directories s))
                (mkState (fs s) (sort_Sort (directories s)) (trace s)))
    as Hend.
  unfold removeEmptyDirectories, bind, sort_directories. rewrite Hs.
  split_and!.
  - apply walk_visits_walkFunc.
  - intros d s1 Hr. destruct (sweepDirectory_end d s1) as [Hd|[Hd _]];
      rewrite Hr in Hd; done.
  - done.
  - intros Hdry. destruct Hend as [[? _]|(_ & ? & _)]; [done|congruence].
Qed.

End SweepEnds.

(** ** What a run records and what it removes *)

Section Accounting.
Context `{Env} (cfg : config).


(** The callback on a file entry records nothing and calls [os.Remove] at
    most once. *)
Lemma callback_file_account (e : entry) (s : state) :
  entry_IsDir e = false →
  let r := callback cfg e s in
  directories r.2 = directories s ∧
  (length (removals (since s r.2)) ≤ 1)%nat.
Proof.
  intros Hdir r. subst r. rewrite callback_file by done.
  unfold removeFromTargetDir, fileOutcome.
  destruct e; cbn [entry_verifyFunc entry_Name];
    unfold tarVerifyFunc, zipVerifyFunc.
  all: run_prog; read_since; split; try done.
  all: cbn [removals omap list_omap length]; lia.
Qed.

Lemma dir_names_cons (e : entry) (es : list entry) :
  dir_names (e :: es) =
  (if entry_IsDir e then [entry_Name e] else []) ++ dir_names es.
Proof.
  unfold dir_names. rewrite filter_cons.
  destruct (entry_IsDir e); by case_decide.
Qed.

(** The account of a pass over [es]: the entries it got through are a prefix
    of [es]; their directories were recorded, in order, and [os.Remove] was
    called at most once for each of their files. *)
Lemma walk_entries_account (es : list entry) (fail : option error)
    (s : state) :
  let r := walk_entries (callback cfg) es fail s in
  ∃ k, (k ≤ length es)%nat ∧
    directories r.2 = directories s ++ dir_names (take k es) ∧
    (length (removals (since s r.2)) + length (dir_names (take k es)) ≤ k)%nat ∧
    (r.1 = Done None → k = length es).
Proof.
  revert s. induction es as [|e es IH]; intros s; cbn zeta.
  - exists 0. cbn. rewrite since_refl, app_nil_r. by split_and!.
  - destruct (traced_run (λ _, True) (callback cfg e) s) as (Ht1 & _);
      [by apply traced_callback|].
    assert (directories (callback cfg e s).2 =
              directories s ++ (if entry_IsDir e then [entry_Name e] else []) ∧
            (length (removals (since s (callback cfg e s).2)) +
               length (if entry_IsDir e then [entry_Name e] else []) ≤ 1)%nat)
      as [Hd1 Hn1].
    { destruct (entry_IsDir e) eqn:Hdir.
      - rewrite callback_directory by done. cbn [snd directories].
        split; [done|]. unfold since. cbn. by rewrite drop_all.
      - destruct (callback_file_account e s Hdir) as [-> ?].
        rewrite app_nil_r. split; [done|]. cbn. lia. }
    cbn [walk_entries]. unfold bind.
    destruct (callback cfg e s) as [[[err|]|code] s1]; cbn [fst snd] in *.
    + exists 1. cbn [take]. rewrite dir_names_cons, app_nil_r.
      split_and!; [cbn; lia|done|done|done].
    + destruct (traced_run (λ _, True) (walk_entries (callback cfg) es fail) s1)
        as (Ht2 & _); [by apply any_walk_entries|].
      destruct (IH s1) as (k & Hk & Hd2 & Hn2 & Hall).
      destruct (walk_entries (callback cfg) es fail s1) as [r2 s2].
      cbn [fst snd] in *.
      exists (S k). cbn [take]. rewrite dir_names_cons.
      rewrite (since_trans s s1 s2) by done.
      rewrite removals_app, !length_app. split_and!.
      * cbn. lia.
      * by rewrite Hd2, Hd1, app_assoc.
      * lia.
      * intros Hr. cbn. by rewrite Hall.
    + exists 1. cbn [take]. rewrite dir_names_cons, app_nil_r.
      split_and!; [cbn; lia|done|done|done].
Qed.

(** X8. The pass records the directory entries of the archive in
    [directories], in the order of the archive and after what was recorded
    before: at any end of the pass, those of the entries it got through;
    after a pass that returned no error, all of them.  File entries record
    nothing. *)
Theorem directories_are_recorded_in_archive_order (s : state) :
  let r := walkArchive cfg s in
  (∃ k, (k ≤ length (archive_entries cfg))%nat ∧
        directories r.2 =
          directories s ++ dir_names (take k (archive_entries cfg))) ∧
  (r.1 = Done None →
   directories r.2 = directories s ++ dir_names (archive_entries cfg)) ∧
  (∀ e s1, entry_IsDir e = false →
     directories (callback cfg e s1).2 = directories s1).
Proof.
  cbn zeta. rewrite walkArchive_entries.
  destruct (walk_entries_account (archive_entries cfg) (archive_failure cfg) s)
    as (k & Hk & Hd & _ & Hall).
  split_and!.
  - by exists k.
  - intros Hr. rewrite Hd, (Hall Hr). by rewrite firstn_all.
  - intros e s1 Hdir. by destruct (callback_file_account e s1 Hdir).
Qed.

(** The sweep of a directory calls [os.Remove] at most once. *)
Lemma sweepDirectory_account (d : string) (s : state) :
  (length (removals (since s (sweepDirectory cfg d s).2)) ≤ 1)%nat.
Proof.
  rewrite sweepDirectory_run.
  set (path := Join (targetDir cfg) d).
  set (n := length (sys_Walk path (fs s))). clearbody n.
  destruct (n =? 1)%nat;
    [destruct (dryRun cfg);
       [|destruct (sys_Remove path (fs s)) as [w|err];
           [|destruct (os_IsNotExist err)]]|].
  all: cbn [snd]; unfold extend, since; cbn [trace];
    rewrite drop_app_length.
  all: unfold dir_header, dir_report; destruct (verbose cfg); cbn [app].
  all: cbn [removals omap list_omap length]; lia.
Qed.

Lemma range_dirs_account (dirs : list string) (s : state) :
  (length (removals (since s (range_dirs cfg dirs s).2)) ≤ length dirs)%nat.
Proof.
  revert s. induction dirs as [|d dirs IH]; intros s.
  - cbn. by rewrite since_refl.
  - destruct (sweepDirectory_trace cfg d s) as (Ht1 & _).
    pose proof (sweepDirectory_account d s) as Hn1.
    cbn [range_dirs]. unfold bind.
    destruct (sweepDirectory cfg d s) as [[[|]|code] s1]; cbn [fst snd] in *.
    + destruct (range_dirs_trace cfg dirs s1) as (Ht2 & _).
      specialize (IH s1).
      rewrite (since_trans s s1) by done.
      rewrite removals_app, length_app. cbn. lia.
    + cbn. lia.
    + cbn. lia.
Qed.

(** X3. Started with no directory recorded, [main] calls [os.Remove] at most
    once for each entry of the archive. *)
Theorem at_most_one_removal_for_each_entry (s : state) :
  directories s = [] →
  (length (removals (since s (main cfg s).2)) ≤
   length (archive_entries cfg))%nat.
Proof.
  intros Hnone. rewrite main_run_on. unfold run_on, bind.
  destruct (walk_entries_account (archive_entries cfg) (archive_failure cfg) s)
    as (k & Hk & Hd & Hn & _).
  destruct (traced_run (λ _, True)
              (walk_entries (callback cfg) (archive_entries cfg)
                 (archive_failure cfg)) s)
    as (Ht1 & _); [by apply any_walk_entries|].
  destruct (walk_entries (callback cfg) (archive_entries cfg)
              (archive_failure cfg) s) as [[err|code] s1];
    cbn [fst snd] in *; [|lia].
  rewrite Hnone in Hd. cbn in Hd.
  assert (∀ r : res unit * state,
            trace r.2 = trace s1 ++ since s1 r.2 →
            (length (removals (since s1 r.2)) ≤
               length (dir_names (take k (archive_entries cfg))))%nat →
            (length (removals (since s r.2)) ≤
               length (archive_entries cfg))%nat)
    as Hsum.
  { intros r Ht2 Hn2. rewrite (since_trans s s1) by done.
    rewrite removals_app, length_app. lia. }
  unfold finish, bind.
  destruct err as [err|]; cbn [app_FatalIfError].
  - change (mkState (fs s1) (directories s1)
              (trace s1 ++ [EvFatal errWalkError err]))
      with (extend s1 [EvFatal errWalkError err]).
    apply Hsum; cbn [snd trace].
    + by rewrite since_extend.
    + rewrite since_extend. cbn. lia.
  - unfold ret. destruct (removeDirs cfg).
    + unfold removeEmptyDirectories, bind, sort_directories.
      set (s0 := mkState (fs s1) (sort_Sort (directories s1)) (trace s1)).
      assert (∀ s', since s1 s' = since s0 s') as Hs by done.
      apply Hsum.
      * rewrite Hs. by destruct (range_dirs_trace cfg (sort_Sort (directories s1)) s0).
      * rewrite Hs.
        etrans; [apply range_dirs_account|].
        by rewrite (sort_Sort_permutation _), Hd.
    + apply Hsum; cbn [snd].
      * by rewrite since_refl, app_nil_r.
      * rewrite since_refl. cbn. lia.
Qed.



End Accounting.

(** ** What [--verbose] changes *)

(** Makes the shared fields of two configurations of the same task the
    same variables. *)
Ltac same_configs cfg0 cfg Hquiet Hsame :=
  destruct cfg0, cfg; unfold same_task in Hsame; cbn in Hquiet, Hsame;
  destruct Hsame as (? & ? & ? & ? & ? & ?); simplify_eq.

Section Quiet.
Context `{Env}.

Lemma calls_app (d1 d2 : list event) : calls (d1 ++ d2) = calls d1 ++ calls d2.
Proof. apply filter_app. Qed.

Lemma calls_nonprint (d : list event) :
  Forall (λ ev, is_printf ev = false) d → calls d = d.
Proof.
  induction 1 as [|ev d Hev _ IH]; [done|].
  unfold calls in *. rewrite filter_cons. case_decide; [|done]. by rewrite IH.
Qed.


Lemma quiets_traced {A : Type} (m : M A) :
  traced (λ ev, is_printf ev = false) m → quiets m m.
Proof.
  intros Hm w dirs. destruct (Hm w dirs) as (r & w' & dirs' & d & Hrun & HP & _).
  exists r, w', dirs', d, d. split_and!; [done..|]. by rewrite calls_nonprint.
Qed.

Lemma quiets_bind {A B : Type} (m m' : M A) (k k' : A → M B) :
  quiets m m' → (∀ a, quiets (k a) (k' a)) → quiets (bind m k) (bind m' k').
Proof.
  intros Hm Hk w dirs.
  destruct (Hm w dirs) as (r & w1 & dirs1 & d1 & d1' & Hrun1 & Hrun1' & Hd1).
  destruct r as [a|code].
  - destruct (Hk a w1 dirs1)
      as (r & w2 & dirs2 & d2 & d2' & Hrun2 & Hrun2' & Hd2).
    exists r, w2, dirs2, (d1 ++ d2), (d1' ++ d2'). split_and!.
    + intros t. unfold bind. by rewrite Hrun1, Hrun2, app_assoc.
    + intros t. unfold bind. by rewrite Hrun1', Hrun2', app_assoc.
    + by rewrite calls_app, Hd1, Hd2.
  - exists (Exited code), w1, dirs1, d1, d1'. split_and!; [..|done].
    + intros t. unfold bind. by rewrite Hrun1.
    + intros t. unfold bind. by rewrite Hrun1'.
Qed.

Lemma quiets_ext {A : Type} (m m' n n' : M A) :
  (∀ s, m s = n s) → (∀ s, m' s = n' s) → quiets m m' → quiets n n'.
Proof.
  intros Hm Hm' Hq w dirs.
  destruct (Hq w dirs) as (r & w' & dirs' & d & d' & Hrun & Hrun' & Hd).
  exists r, w', dirs', d, d'. split_and!; [..|done].
  - intros t. by rewrite <- Hm.
  - intros t. by rewrite <- Hm'.
Qed.

Lemma quiets_prints (m' : M unit) : prints_only m' → quiets (ret tt) m'.
Proof.
  intros Hm' w dirs. destruct (Hm' w dirs) as (d' & Hrun' & Hd').
  exists (Done tt), w, dirs, [], d'. split_and!; [|done..].
  intros t. by rewrite app_nil_r.
Qed.

Lemma prints_only_ret : prints_only (ret tt).
Proof.
  intros w dirs. exists []. split; [|done]. intros t. by rewrite app_nil_r.
Qed.

Lemma prints_only_fmt_Printf (format : string) (args : list string) :
  prints_only (fmt_Printf format args).
Proof. intros w dirs. by exists [EvPrintf (Sprintf format args)]. Qed.

Lemma prints_only_seq (m m' : M unit) :
  prints_only m → prints_only m' → prints_only (bind m (λ _, m')).
Proof.
  intros Hm Hm' w dirs.
  destruct (Hm w dirs) as (d & Hrun & Hd).
  destruct (Hm' w dirs) as (d' & Hrun' & Hd').
  exists (d ++ d'). split.
  - intros t. unfold bind. by rewrite Hrun, Hrun', app_assoc.
  - by rewrite calls_app, Hd, Hd'.
Qed.

Lemma prints_only_when (b : bool) (m : M unit) :
  prints_only m → prints_only (when b m).
Proof. destruct b; [done|]. intros _. apply prints_only_ret. Qed.

(** What [quiets] says of two runs from the same state. *)
Lemma quiets_run {A : Type} (m m' : M A) (s : state) :
  quiets m m' →
  (m s).1 = (m' s).1 ∧
  same_disk (m s).2 (m' s).2 ∧
  since s (m s).2 = calls (since s (m' s).2).
Proof.
  intros Hq. destruct s as [w dirs t].
  destruct (Hq w dirs) as (r & w' & dirs' & d & d' & Hrun & Hrun' & Hd).
  rewrite Hrun, Hrun'. cbn [fst snd].
  by rewrite (since_app _ _ d), (since_app _ _ d').
Qed.

End Quiet.

(** One step of a proof that the quiet program is the program without its
    printed lines. *)
Ltac quiets_step :=
  match goal with
  | |- quiets (bind _ _) (bind _ _) => apply quiets_bind; [|intros ?]
  | |- quiets (ret tt) (when _ _) =>
      apply quiets_prints, prints_only_when;
      repeat first [apply prints_only_seq|apply prints_only_fmt_Printf]
  | |- quiets (match ?x with _ => _ end) (match ?x with _ => _ end) =>
      destruct x
  | |- quiets ?m ?m =>
      apply quiets_traced; repeat traced_step; try done
  end.

Section QuietTool.
Context `{Env}.

Lemma quiets_removeFromTargetDir (cfg0 cfg : config) (filename : string)
    (verifyFunc : verifyCallback) :
  verbose cfg0 = false → same_task cfg0 cfg →
  (∀ file, traced (λ ev, is_printf ev = false) (verifyFunc file)) →
  quiets (removeFromTargetDir cfg0 filename (targetDir cfg0) verifyFunc)
    (removeFromTargetDir cfg filename (targetDir cfg) verifyFunc).
Proof.
  intros Hquiet Hsame Hv. same_configs cfg0 cfg Hquiet Hsame.
  unfold removeFromTargetDir, fileOutcome.
  cbn [verbose dryRun targetDir when].
  repeat quiets_step.
Qed.

Lemma quiets_callback (cfg0 cfg : config) (e : entry) :
  verbose cfg0 = false → same_task cfg0 cfg →
  quiets (callback cfg0 e) (callback cfg e).
Proof.
  intros Hquiet Hsame.
  assert (entry_verifyFunc cfg0 e = entry_verifyFunc cfg e) as Hvf.
  { destruct Hsame as (_ & _ & Hv & _).
    destruct e; cbn; unfold tarVerifyFunc, zipVerifyFunc; by rewrite Hv. }
  assert (targetDir cfg0 = targetDir cfg) as Htarget by apply Hsame.
  destruct e; cbn [callback]; unfold tarCallback, zipCallback.
  - destruct (hdr_IsDir header); [by repeat quiets_step|].
    cbn [entry_verifyFunc] in Hvf. rewrite Hvf.
    apply quiets_removeFromTargetDir; [done..|].
    intros f. apply (traced_entry_verifyFunc cfg _ (TarEntry header reader)).
    by intros [].
  - destruct (zf_IsDir file); [by repeat quiets_step|].
    cbn [entry_verifyFunc] in Hvf. rewrite Hvf.
    apply quiets_removeFromTargetDir; [done..|].
    intros f. apply (traced_entry_verifyFunc cfg _ (ZipEntry file)).
    by intros [].
Qed.

Lemma quiets_walk_entries {E : Type} (cb cb' : E → M (option error))
    (es : list E) (fail : option error) :
  (∀ e, quiets (cb e) (cb' e)) →
  quiets (walk_entries cb es fail) (walk_entries cb' es fail).
Proof.
  intros Hcb. induction es as [|e es IH]; cbn [walk_entries].
  - by quiets_step.
  - apply quiets_bind; [done|]. intros [err|]; [by quiets_step|done].
Qed.

Lemma quiets_walkArchive (cfg0 cfg : config) :
  verbose cfg0 = false → same_task cfg0 cfg →
  quiets (walkArchive cfg0) (walkArchive cfg).
Proof.
  intros Hquiet Hsame.
  apply (quiets_ext
           (walk_entries (callback cfg0) (archive_entries cfg)
              (archive_failure cfg))
           (walk_entries (callback cfg) (archive_entries cfg)
              (archive_failure cfg))).
  - intros s. rewrite walkArchive_entries.
    destruct Hsame as (_ & _ & _ & Hty & Hfile & _).
    unfold archive_entries, archive_failure. by rewrite Hty, Hfile.
  - intros s. by rewrite walkArchive_entries.
  - apply quiets_walk_entries. intros e. by apply quiets_callback.
Qed.

Lemma quiets_sweepDirectory (cfg0 cfg : config) (d : string) :
  verbose cfg0 = false → same_task cfg0 cfg →
  quiets (sweepDirectory cfg0 d) (sweepDirectory cfg d).
Proof.
  intros Hquiet Hsame. same_configs cfg0 cfg Hquiet Hsame.
  unfold sweepDirectory, dirOutcome.
  cbn [verbose dryRun targetDir when].
  apply quiets_bind; [by quiets_step|]. intros _.
  apply quiets_bind; [by quiets_step|]. intros [count [err|]];
    [by quiets_step|].
  apply quiets_bind; [|intros [[[??]?]?]; by repeat quiets_step].
  destruct (count =? 1)%nat; [|by quiets_step].
  destruct (negb _); [|by quiets_step].
  apply quiets_traced. repeat traced_step; done.
Qed.

Lemma quiets_range_dirs (cfg0 cfg : config) (dirs : list string) :
  verbose cfg0 = false → same_task cfg0 cfg →
  quiets (range_dirs cfg0 dirs) (range_dirs cfg dirs).
Proof.
  intros Hquiet Hsame. induction dirs as [|d dirs IH]; cbn [range_dirs].
  - by quiets_step.
  - apply quiets_bind; [by apply quiets_sweepDirectory|].
    intros [|]; [done|by quiets_step].
Qed.

Lemma quiets_main (cfg0 cfg : config) :
  verbose cfg0 = false → same_task cfg0 cfg →
  quiets (main cfg0) (main cfg).
Proof.
  intros Hquiet Hsame. unfold main.
  apply quiets_bind; [by apply quiets_walkArchive|]. intros err.
  apply quiets_bind; [destruct err; by quiets_step|]. intros _.
  assert (removeDirs cfg0 = removeDirs cfg) as -> by apply Hsame.
  destruct (removeDirs cfg); [|by quiets_step].
  unfold removeEmptyDirectories.
  apply quiets_bind; [by quiets_step|]. intros dirs.
  by apply quiets_range_dirs.
Qed.


(** X9. [--verbose] and [--no-color] change what is printed and nothing
    else: two runs of [main] from the same state, under flags that differ at
    most in these two, end the same way, leave the same file system and the
    same directories, and make the same calls, printing apart, in the same
    order. *)
Theorem verbose_and_color_only_change_the_report (cfg1 cfg2 : config)
    (s : state) :
  same_task cfg1 cfg2 →
  let r1 := main cfg1 s in
  let r2 := main cfg2 s in
  r1.1 = r2.1 ∧
  fs r1.2 = fs r2.2 ∧
  directories r1.2 = directories r2.2 ∧
  calls (since s r1.2) = calls (since s r2.2).
Proof.
  intros Hsame r1 r2.
  assert (same_task (quiet cfg1) cfg1) as Hq1 by by unfold same_task.
  assert (same_task (quiet cfg1) cfg2) as Hq2 by done.
  destruct (quiets_run (main (quiet cfg1)) (main cfg1) s)
    as (Hr1 & [Hfs1 Hdirs1] & Hd1); [by apply quiets_main|].
  destruct (quiets_run (main (quiet cfg1)) (main cfg2) s)
    as (Hr2 & [Hfs2 Hdirs2] & Hd2); [by apply quiets_main|].
  subst r1 r2. split_and!; congruence.
Qed.

End QuietTool.

(** ** The first version of the tool *)

Section FirstVersion.
Context `{Env} (cfg : config).





End FirstVersion.

(** ** Colours, and archives without files *)

Section Remaining.
Context `{Env} (cfg : config).

(** X14. The colour helpers call [colorFuncs] with the keys [init] installs
    and no other, so that no call meets a missing key; with [--no-color]
    they return the value as it is, and the captions are the plain [Yes]
    and [No]; the captions of the two versions of the tool are the same. *)
Theorem colour_helpers_use_the_installed_keys (value : string) :
  dom colorFuncs = ({["green"; "red"; "cyan"]} : gset string) ∧
  cyan cfg value =
    (if noColor cfg then value else color_Sprint FgCyan value) ∧
  green cfg value =
    (if noColor cfg then value else color_Sprint FgGreen value) ∧
  red cfg value =
    (if noColor cfg then value else color_Sprint FgRed value) ∧
  (∀ caption, Legacy.printCaption cfg caption = printCaption cfg caption) ∧
  (noColor cfg = true →
   ∀ caption, printCaption cfg caption = if caption then "Yes" else "No").
Proof.
  split_and!.
  - unfold colorFuncs. rewrite !dom_insert_L, dom_empty_L. set_solver.
  - unfold cyan. by destruct (noColor cfg).
  - unfold green. by destruct (noColor cfg).
  - unfold red. by destruct (noColor cfg).
  - apply legacy_printCaption.
  - intros Hplain caption. unfold printCaption, green, red.
    rewrite Hplain. by destruct caption.
Qed.

(** X15. On an archive without files, read without error: the pass makes no
    call at all and touches nothing, it only records the directories, in
    the order of the archive; without [--remove-dirs] this is all [main]
    does.  In particular [main] on an empty archive returns in the state it
    started in. *)
Theorem archive_without_files_touches_nothing (s : state) :
  (∀ e, e ∈ archive_entries cfg → entry_IsDir e = true) →
  archive_failure cfg = None →
  walkArchive cfg s =
    (Done None,
     mkState (fs s) (directories s ++ (entry_Name <$> archive_entries cfg))
       (trace s)) ∧
  (removeDirs cfg = false →
   main cfg s =
     (Done tt,
      mkState (fs s) (directories s ++ (entry_Name <$> archive_entries cfg))
        (trace s))) ∧
  (archive_entries cfg = [] → removeDirs cfg = false → main cfg s = (Done tt, s)).
Proof.
  intros Hdirs Hfail.
  assert (walkArchive cfg s =
            (Done None,
             mkState (fs s)
               (directories s ++ (entry_Name <$> archive_entries cfg))
               (trace s))) as Hpass.
  { rewrite walkArchive_entries, Hfail.
    revert s Hdirs. induction (archive_entries cfg) as [|e es IH];
      intros s Hdirs.
    - cbn. rewrite app_nil_r. by destruct s.
    - rewrite (walk_entries_continue _ _ _ _ _ _
                 (callback_directory cfg e s (Hdirs e (list_elem_of_here _ _)))).
      rewrite IH by (intros e' ?; by apply Hdirs; right).
      cbn. by rewrite <- app_assoc. }
  assert (removeDirs cfg = false →
          main cfg s =
            (Done tt,
             mkState (fs s)
               (directories s ++ (entry_Name <$> archive_entries cfg))
               (trace s))) as Hmain.
  { intros Hrd. rewrite main_after_pass, Hpass. cbn. by rewrite Hrd. }
  split_and!; [done..|].
  intros Hnone Hrd. rewrite (Hmain Hrd), Hnone. cbn.
  rewrite app_nil_r. by destruct s.
Qed.

End Remaining.

(** * The further properties on the small installation *)

Lemma memfs_removed_is_gone (p : string) (w w' : gmap string MemFS.node) :
  MemFS.remove p w = inl w' → MemFS.open p w' ≠ None.
Proof.
  unfold MemFS.remove, MemFS.open. intros Hrm.
  assert (w' = delete p w) as ->.
  { repeat case_match; by simplify_eq. }
  by rewrite lookup_delete_eq.
Qed.

Lemma platform_removed_is_gone : @removed_is_gone Example.platform.
Proof. intros p w w'. apply memfs_removed_is_gone. Qed.

Section MoreWitnesses.
Import MemFS Example Cases.
#[local] Existing Instance platform.

(** The path of the file holds a directory that is not empty: [os.Remove]
    refuses it and the run dies. *)
Lemma removal_error_is_fatal_witness :
  sys_Remove "t/dir/file.txt" occupied = inr ENOTEMPTY ∧
  (main (flags false false false) (begin occupied)).1 = Exited 1.
Proof.
  split; [done|].
  destruct (@removal_error_is_fatal platform (flags false false false)
              (begin occupied) (recorded occupied) file_entry [dir_entry] []
              ENOTEMPTY)
    as (_ & _ & _ & _ & Hmain); [done|done|done|done|done|by left|done|].
  by rewrite Hmain.
Defined.

(** The installed file is removed: what is left is the target without it. *)
Lemma present_verified_file_is_removed_witness :
  sys_Remove "t/dir/file.txt" installed = inl missing ∧
  fs (callback (flags false true true) file_entry (begin installed)).2 =
    missing ∧
  removals
    (since (begin installed)
       (callback (flags false true true) file_entry (begin installed)).2) =
    ["t/dir/file.txt"].
Proof.
  assert (sys_Remove "t/dir/file.txt" installed = inl missing) as Hrm
    by by vm_compute.
  split; [done|].
  destruct (@present_verified_file_is_removed platform (flags false true true)
              (begin installed) file_entry
              (callback (flags false true true)) missing)
    as (_ & Hfs & _ & Hrms & _);
    [by left|done|done|done| |done|by split].
  right. by exists hello, hello.
Defined.

Lemma at_most_one_removal_for_each_entry_witness :
  (length
     (removals
        (since (begin installed)
           (main (flags false true true) (begin installed)).2)) ≤ 2)%nat.
Proof.
  by apply (@at_most_one_removal_for_each_entry platform
              (flags false true true) (begin installed)).
Defined.



(** A recorded directory that is not in the target is skipped; on a
    read-only file system the sweep dies on the first empty directory. *)
Lemma vanished_directory_is_skipped_other_errors_abort_witness :
  (range_dirs (flags false true false) ["gone/"] gone_recorded).1 = Done tt ∧
  (@range_dirs read_only_platform (flags false true false) ["dir/"; "etc/"]
     read_only_recorded).1 = Exited 1.
Proof.
  split.
  - by rewrite (@vanished_directory_is_skipped_other_errors_abort platform
                  (flags false true false) "gone/" [] gone_recorded ENOENT
                  eq_refl eq_refl eq_refl).
  - by rewrite (@vanished_directory_is_skipped_other_errors_abort
                  read_only_platform (flags false true false) "dir/" ["etc/"]
                  read_only_recorded EROFS eq_refl eq_refl eq_refl).
Defined.

Lemma sweep_returns_or_dies_on_a_removal_error_witness :
  (removeEmptyDirectories (flags true true false) (two_recorded missing)).1 =
  Done tt.
Proof.
  destruct (@sweep_returns_or_dies_on_a_removal_error platform
              (flags true true false) (two_recorded missing))
    as (_ & _ & _ & Hdry).
  by apply Hdry.
Defined.

Lemma directories_are_recorded_in_archive_order_witness :
  directories (walkArchive (flags false false true) (begin installed)).2 =
  ["dir/"].
Proof.
  destruct (@directories_are_recorded_in_archive_order platform
              (flags false false true) (begin installed))
    as (_ & Hall & _).
  by rewrite Hall.
Defined.

Lemma verbose_and_color_only_change_the_report_witness :
  fs (main (flags false true true) (begin installed)).2 =
  fs (main (quiet (flags false true true)) (begin installed)).2.
Proof.
  by destruct (@verbose_and_color_only_change_the_report platform
                 (flags false true true) (quiet (flags false true true))
                 (begin installed))
    as (_ & Hfs & _).
Defined.

(** After the installed file was removed, a second pass finds nothing. *)
Lemma second_removal_finds_nothing_witness :
  (callback (flags false true true) file_entry
     (callback (flags false true true) file_entry (begin installed)).2).1 =
  Done None.
Proof.
  rewrite (@second_removal_finds_nothing platform (flags false true true)
             (begin installed) file_entry (flags false true true)
             platform_removed_is_gone eq_refl eq_refl); [done|].
  vm_compute.
  repeat first [apply list_elem_of_here|apply list_elem_of_further].
Defined.

Lemma Less_is_a_strict_order_witness :
  Less ["b"; "a"] 0 1 = true ∧ Less ["b"; "a"] 1 0 = false.
Proof.
  split; [done|].
  destruct (Less_is_a_strict_order ["b"; "a"]) as (_ & Hasym & _).
  by apply Hasym.
Defined.

Lemma Swap_exchanges_two_positions_witness :
  Swap ["a"; "b"; "c"] 0 2 = Some ["c"; "b"; "a"] ∧
  Swap ["c"; "b"; "a"] 0 2 = Some ["a"; "b"; "c"].
Proof.
  split; [done|].
  destruct (Swap_exchanges_two_positions ["a"; "b"; "c"] 0 2) as [_ Hswap].
  destruct (Hswap ["c"; "b"; "a"]) as (_ & _ & _ & _ & _ & Hback & _); done.
Defined.


Lemma colour_helpers_use_the_installed_keys_witness :
  printCaption (flags false true true) true = "Yes".
Proof.
  destruct (@colour_helpers_use_the_installed_keys platform
              (flags false true true) "")
    as (_ & _ & _ & _ & _ & Hplain).
  by apply (Hplain eq_refl true).
Defined.

Lemma archive_without_files_touches_nothing_witness :
  @main directories_platform (flags false false true)
    (@start directories_platform installed) =
  (Done tt, @mkState directories_platform installed ["dir/"; "etc/"] []).
Proof.
  destruct (@archive_without_files_touches_nothing directories_platform
              (flags false false true) (@start directories_platform installed))
    as (_ & Hmain & _); [|done|].
  - intros e He.
    change (e ∈ [TarEntry (mkTarHeader "dir/" true) (mkTarReader (inl []));
                 TarEntry (mkTarHeader "etc/" true) (mkTarReader (inl []))])
      in He.
    by each_member He.
  - by rewrite Hmain.
Defined.

End MoreWitnesses.
